(** * Reachability engine (reachability.hpp) with two of its clients, the
    leaping frogs (frogs.cpp) and the goat, cabbage and wolf (crossing.cpp):
    a shallow embedding and the properties of its search.

    The class [state_space_t] becomes a record; its member function [check]
    becomes a function that returns the outcome together with the engine as
    the call leaves it (the member [previous_cost] is the only one a call
    writes).  The [while] loops of [check] and [get_solution_from_trace] are
    bounded by a fuel argument; running out of fuel is a separate outcome,
    and every statement that says a call returns is proved for every fuel
    above an explicit bound. *)

From stdpp Require Import gmap list sorting.
From Stdlib Require Import ZArith Lia.

Set Warnings "-level-tolerance,-clear-no-such-hyp".

(** The value-initialised [int], which [std::map::operator[]] inserts for
    a missing key and with which an [int] cost starts, is 0. *)
Global Instance int_inhabited : Inhabited Z := populate 0%Z.

(** ** reachability.hpp *)

Inductive search_order_t := depth_first | breadth_first | cost_guided.

Global Instance search_order_eq_dec : EqDecision search_order_t.
Proof. solve_decision. Defined.

(** [successors]: every transition is run on a copy of the current state;
    a transition, which mutates its argument in the source, is a function
    from the state before to the state after. *)
Definition successors {state_t : Type}
    (transitions : state_t → list (state_t → state_t)) : state_t → list state_t :=
  fun current_state =>
    foldl (fun all_successors transition =>
             all_successors ++ [transition current_state])
          [] (transitions current_state).

(** The default cost function and the default invariant. *)
Definition default_cost_function {State_t : Type} : State_t → Z → Z :=
  fun _state _prev_cost => 0%Z.

Definition default_invariant {State_t : Type} : State_t → bool :=
  fun _state => true.

(** What a call of [check] can do: return a solution, throw the
    [logic_error] "No solution could be found", or still be running when the
    fuel is used up. *)
Inductive check_result (State_t : Type) :=
  | Solution (solution : list State_t)
  | NoSolutionFound
  | OutOfFuel.
Arguments Solution {State_t} solution.
Arguments NoSolutionFound {State_t}.
Arguments OutOfFuel {State_t}.

Section StateSpace.
(** [State_t] has [operator==] (used by [std::find]) and is the key of a
    [std::map]; both are taken to agree with equality of values.  A
    default-constructed value exists for states and costs ([State_t state;]
    in [popstate], [trace[...]] on a missing key): [inhabitant] stands for
    the value-initialised [State_t()], and every engine of this file is
    built over an instance that gives it (0 for [int], the empty row for
    the stones of frogs.cpp, three actors on the first shore for
    crossing.cpp, [state_t{}] for family.cpp). *)
Context {State_t : Type} `{Countable State_t} `{Inhabited State_t}.
Context {Cost_t : Type} `{Inhabited Cost_t}.
(** [operator<] of [Cost_t]. *)
Variable cost_lt : Cost_t → Cost_t → bool.

Record state_space_t := {
  initial_state : State_t;
  initial_cost : Cost_t;
  successors_function : State_t → list State_t;
  invariant : State_t → bool;
  cost_function : State_t → Cost_t → Cost_t;
  previous_cost : Cost_t
}.

(** The five-argument constructor; [previous_cost] starts at
    [initial_cost]. *)
Definition make_state_space (state : State_t) (cost : Cost_t)
    (succ : State_t → list State_t) (invariant_fn : State_t → bool)
    (cost_func : State_t → Cost_t → Cost_t) : state_space_t :=
  {| initial_state := state; initial_cost := cost;
     successors_function := succ; invariant := invariant_fn;
     cost_function := cost_func; previous_cost := cost |}.

Definition set_previous_cost (sp : state_space_t) (c : Cost_t) : state_space_t :=
  {| initial_state := initial_state sp; initial_cost := initial_cost sp;
     successors_function := successors_function sp; invariant := invariant sp;
     cost_function := cost_function sp; previous_cost := c |}.

(** [std::min_element] on a vector, as the index it returns: the scan keeps
    the position of the smallest element seen and replaces it only by a
    strictly smaller one. *)
Fixpoint min_element_from (smallest : nat) (smallest_val : Cost_t)
    (first : nat) (rest : list Cost_t) : nat :=
  match rest with
  | [] => smallest
  | c :: rest' =>
      if cost_lt c smallest_val
      then min_element_from first c (S first) rest'
      else min_element_from smallest smallest_val (S first) rest'
  end.

Definition min_element (costs : list Cost_t) : nat :=
  match costs with
  | [] => 0
  | c :: rest => min_element_from 0 c 1 rest
  end.

Variable sp : state_space_t.

(** [popstate]: the selected state, the deque after the removal and the
    member [previous_cost] after the call.  On an empty deque the source
    has no defined behaviour; [check] never calls it there, and the model
    then yields the default-constructed [state]. *)
Definition popstate (waiting : list State_t) (search_order : search_order_t)
    (prev_cost : Cost_t) : State_t * list State_t * Cost_t :=
  match search_order with
  | depth_first =>
      (default inhabitant (last waiting), removelast waiting, prev_cost)
  | breadth_first =>
      (default inhabitant (head waiting), tail waiting, prev_cost)
  | cost_guided =>
      let costs := (fun state => cost_function sp state prev_cost) <$> waiting in
      let index := min_element costs in
      (waiting !!! index, delete index waiting, costs !!! index)
  end.

(** [trace[key]] of a [std::map]: a missing key is inserted with the
    value-initialised [State_t()], which is [inhabitant]. *)
Definition trace_index (trace : gmap State_t State_t) (key : State_t)
    : State_t * gmap State_t State_t :=
  match trace !! key with
  | Some v => (v, trace)
  | None => (inhabitant, <[key := inhabitant]> trace)
  end.

(** The [while] loop of [get_solution_from_trace]; [fuel] bounds the number
    of times its condition is tested. *)
Fixpoint backtrack (fuel : nat) (trace : gmap State_t State_t)
    (state : State_t) (solution : list State_t) : option (list State_t) :=
  match fuel with
  | O => None
  | S fuel' =>
      if decide (state = initial_state sp) then Some solution
      else
        let '(state', trace') := trace_index trace state in
        backtrack fuel' trace' state' (state' :: solution)
  end.

Definition get_solution_from_trace (fuel : nat)
    (trace : gmap State_t State_t) (curr_state : State_t)
    : option (list State_t) :=
  backtrack fuel trace curr_state [curr_state].

(** The locals of [check] together with the member [previous_cost]. *)
Record run_t := Run {
  waiting : list State_t;
  passed : list State_t;
  trace : gmap State_t State_t;
  running_cost : Cost_t
}.

(** The body of the [for] loop over the successors of [curr_state]. *)
Definition visit (curr_state : State_t) (passed : list State_t)
    (wt : list State_t * gmap State_t State_t) (succ : State_t)
    : list State_t * gmap State_t State_t :=
  if invariant sp succ && bool_decide (succ ∉ wt.1) && bool_decide (succ ∉ passed)
  then (wt.1 ++ [succ], <[succ := curr_state]> wt.2)
  else wt.

Definition expand (curr_state : State_t) (passed : list State_t)
    (wt : list State_t * gmap State_t State_t)
    : list State_t * gmap State_t State_t :=
  foldl (visit curr_state passed) wt (successors_function sp curr_state).

Variable goal_pred : State_t → bool.
Variable search_order : search_order_t.

(** One turn of the [while] loop of [check]. *)
Inductive step_t :=
  | Exhausted (prev_cost : Cost_t)
  | GoalFound (curr_state : State_t) (trace : gmap State_t State_t)
              (prev_cost : Cost_t)
  | Continue (r : run_t).

Definition loop_body (r : run_t) : step_t :=
  match waiting r with
  | [] => Exhausted (running_cost r)
  | _ :: _ =>
      let '(curr_state, waiting', prev_cost) :=
        popstate (waiting r) search_order (running_cost r) in
      if goal_pred curr_state then GoalFound curr_state (trace r) prev_cost
      else
        let passed' := passed r ++ [curr_state] in
        let '(waiting'', trace') :=
          expand curr_state passed' (waiting', trace r) in
        Continue (Run waiting'' passed' trace' prev_cost)
  end.

Fixpoint check_loop (fuel : nat) (r : run_t) : check_result State_t * Cost_t :=
  match fuel with
  | O => (OutOfFuel, running_cost r)
  | S fuel' =>
      match loop_body r with
      | Exhausted prev_cost => (NoSolutionFound, prev_cost)
      | GoalFound curr_state trace prev_cost =>
          (match get_solution_from_trace fuel' trace curr_state with
           | Some solution => Solution solution
           | None => OutOfFuel
           end, prev_cost)
      | Continue r' => check_loop fuel' r'
      end
  end.

Definition initial_run : run_t :=
  Run [initial_state sp] [] ∅ (previous_cost sp).

(** The run after [n] full turns of the loop, when none of them left it. *)
Fixpoint iterate (n : nat) (r : run_t) : option run_t :=
  match n with
  | O => Some r
  | S n' =>
      match loop_body r with
      | Continue r' => iterate n' r'
      | _ => None
      end
  end.

(** The states on which [invariant] is called.  The condition of the [if]
    in the [for] loop evaluates [invariant(succ)] as its first operand, so
    once for every successor, whatever [std::find] would say; the fold below
    is the one of [expand] with the argument of each call written down. *)
Definition visit_calls (curr_state : State_t) (passed : list State_t)
    (wtc : (list State_t * gmap State_t State_t) * list State_t)
    (succ : State_t)
    : (list State_t * gmap State_t State_t) * list State_t :=
  (visit curr_state passed wtc.1 succ, wtc.2 ++ [succ]).

Definition expand_calls (curr_state : State_t) (passed : list State_t)
    (wt : list State_t * gmap State_t State_t) : list State_t :=
  (foldl (visit_calls curr_state passed) (wt, [])
     (successors_function sp curr_state)).2.

Definition loop_body_calls (r : run_t) : list State_t :=
  match waiting r with
  | [] => []
  | _ :: _ =>
      let '(curr_state, waiting', _) :=
        popstate (waiting r) search_order (running_cost r) in
      if goal_pred curr_state then []
      else expand_calls curr_state (passed r ++ [curr_state]) (waiting', trace r)
  end.

(** The calls of [invariant] during the first [fuel] turns of the loop. *)
Fixpoint invariant_calls (fuel : nat) (r : run_t) : list State_t :=
  match fuel with
  | O => []
  | S fuel' =>
      loop_body_calls r ++
      match loop_body r with
      | Continue r' => invariant_calls fuel' r'
      | _ => []
      end
  end.

(** [check]: the outcome and the engine after the call. *)
Definition check (fuel : nat) : check_result State_t * state_space_t :=
  let '(res, prev_cost) := check_loop fuel initial_run in
  (res, set_previous_cost sp prev_cost).

End StateSpace.

Arguments state_space_t State_t Cost_t : clear implicits.
Arguments run_t State_t {_ _} Cost_t.
Arguments step_t State_t {_ _} Cost_t.

(** The three-argument constructor: costs are [int], the initial cost is 0
    and the cost function is the default one. *)
Definition make_default_state_space {State_t : Type} (state : State_t)
    (succ : State_t → list State_t) (invariant_fn : State_t → bool)
    : state_space_t State_t Z :=
  {| initial_state := state; initial_cost := 0%Z;
     successors_function := succ; invariant := invariant_fn;
     cost_function := default_cost_function; previous_cost := 0%Z |}.

(** ** frogs.cpp *)

Module Frogs.

Inductive frog := empty | green | brown.

Global Instance frog_eq_dec : EqDecision frog.
Proof. solve_decision. Defined.

Definition frog_to_nat (f : frog) : nat :=
  match f with empty => 0 | green => 1 | brown => 2 end.

Definition frog_of_nat (n : nat) : option frog :=
  match n with
  | 0 => Some empty | 1 => Some green | 2 => Some brown | _ => None
  end.

Global Instance frog_countable : Countable frog.
Proof. refine (inj_countable frog_to_nat frog_of_nat _). by intros []. Defined.

Definition stones_t := list frog.

(** The first loop of [transitions]: the index of the first empty stone,
    or the size when there is none. *)
Fixpoint find_empty (stones : stones_t) : nat :=
  match stones with
  | [] => 0
  | f :: rest => if decide (f = empty) then 0 else S (find_empty rest)
  end.

Definition jump (from to : nat) (who : frog) : stones_t → stones_t :=
  fun s => <[to := who]> (<[from := empty]> s).

Definition transitions (stones : stones_t) : list (stones_t → stones_t) :=
  if decide (length stones < 2) then []
  else
    let i := find_empty stones in
    if decide (i = length stones) then []
    else
      (if decide (0 < i ∧ stones !! (i - 1) = Some green)
       then [jump (i - 1) i green] else [])
      ++ (if decide (1 < i ∧ stones !! (i - 2) = Some green)
          then [jump (i - 2) i green] else [])
      ++ (if decide (i < length stones - 1 ∧ stones !! (i + 1) = Some brown)
          then [jump (i + 1) i brown] else [])
      ++ (if decide (i < length stones - 2 ∧ stones !! (i + 2) = Some brown)
          then [jump (i + 2) i brown] else []).

(** The loop of [solve] that places the frogs, counting [frogs] down. *)
Fixpoint place (frogs : nat) (sf : stones_t * stones_t) : stones_t * stones_t :=
  match frogs with
  | O => sf
  | S k =>
      let '(start, finish) := sf in
      place k
        (<[length start - k - 1 := brown]> (<[k := green]> start),
         <[length finish - k - 1 := green]> (<[k := brown]> finish))
  end.

(** The rows that [solve] builds.  The code computes [frogs*2+1] on
    [size_t]: the definition is the code as long as that number is below
    2^64, where nothing wraps around and the loop writes inside the rows. *)
Definition start_finish (frogs : nat) : stones_t * stones_t :=
  let stones := frogs * 2 + 1 in
  place frogs (replicate stones empty, replicate stones empty).

Definition space (frogs : nat) : state_space_t stones_t Z :=
  make_default_state_space (start_finish frogs).1
    (successors transitions) default_invariant.

(** The goal predicate of [solve]: [state == finish]. *)
Definition is_finish (frogs : nat) : stones_t → bool :=
  fun state => bool_decide (state = (start_finish frogs).2).

(** [solve]: the constructed engine is searched once. *)
Definition solve (frogs : nat) (order : search_order_t) (fuel : nat)
    : check_result stones_t :=
  (check Z.ltb (space frogs) (is_finish frogs) order fuel).1.

(** The same puzzle under an invariant that rejects every state but the
    start. *)
Definition blocked_space (frogs : nat) : state_space_t stones_t Z :=
  make_default_state_space (start_finish frogs).1
    (successors transitions)
    (fun state => bool_decide (state = (start_finish frogs).1)).

(** The two traces printed in the sample output of frogs.cpp for two frogs
    per side: breadth-first, then depth-first. *)
Definition breadth_first_trace : list stones_t :=
  [ [green; green; empty; brown; brown];
    [green; empty; green; brown; brown];
    [green; brown; green; empty; brown];
    [green; brown; green; brown; empty];
    [green; brown; empty; brown; green];
    [empty; brown; green; brown; green];
    [brown; empty; green; brown; green];
    [brown; brown; green; empty; green];
    [brown; brown; empty; green; green] ].

Definition depth_first_trace : list stones_t :=
  [ [green; green; empty; brown; brown];
    [green; green; brown; empty; brown];
    [green; empty; brown; green; brown];
    [empty; green; brown; green; brown];
    [brown; green; empty; green; brown];
    [brown; green; brown; green; empty];
    [brown; green; brown; empty; green];
    [brown; empty; brown; green; green];
    [brown; brown; empty; green; green] ].

End Frogs.

(** ** crossing.cpp *)

Module Crossing.

Inductive pos_t := shore1 | travel | shore2.

Global Instance pos_eq_dec : EqDecision pos_t.
Proof. solve_decision. Defined.

Definition pos_to_nat (p : pos_t) : nat :=
  match p with shore1 => 0 | travel => 1 | shore2 => 2 end.

Definition pos_of_nat (n : nat) : option pos_t :=
  match n with
  | 0 => Some shore1 | 1 => Some travel | 2 => Some shore2 | _ => None
  end.

Global Instance pos_countable : Countable pos_t.
Proof. refine (inj_countable pos_to_nat pos_of_nat _). by intros []. Defined.

(** [enum actor { cabbage, goat, wolf }] indexes the array of positions. *)
Definition cabbage : nat := 0.
Definition goat : nat := 1.
Definition wolf : nat := 2.

(** [std::array<pos_t,3>]: a list that every transition keeps at length 3. *)
Definition actors_t := list pos_t.

(** [actors_t{}], the value-initialised array: every position is the first
    enumerator, [shore1]. *)
Global Instance actors_inhabited : Inhabited actors_t | 0 :=
  populate [shore1; shore1; shore1].

Definition move (i : nat) (p : pos_t) : actors_t → actors_t :=
  fun actors => <[i := p]> actors.

Definition transitions (actors : actors_t) : list (actors_t → actors_t) :=
  foldl (fun res i =>
           match actors !! i with
           | Some shore1 => res ++ [move i travel]
           | Some travel => res ++ [move i shore1; move i shore2]
           | Some shore2 => res ++ [move i travel]
           | None => res
           end)
        [] (seq 0 (length actors)).

(** [std::count] of a position. *)
Definition count (p : pos_t) (actors : actors_t) : nat :=
  length (filter (λ q, q = p) actors).

Definition is_valid (actors : actors_t) : bool :=
  if decide (1 < count travel actors) then false
  else if decide (actors !! goat = actors !! wolf ∧
                  actors !! cabbage = Some travel) then false
  else if decide (actors !! goat = actors !! cabbage ∧
                  actors !! wolf = Some travel) then false
  else true.

(** [actors_t{}]: all three actors on the first shore. *)
Definition start : actors_t := [shore1; shore1; shore1].

Definition all_on_shore2 (actors : actors_t) : bool :=
  bool_decide (count shore2 actors = length actors).

Definition space : state_space_t actors_t Z :=
  make_default_state_space start (successors transitions) is_valid.

(** [solve] searches in the default, breadth-first order. *)
Definition solve (fuel : nat) : check_result actors_t :=
  (check Z.ltb space all_on_shore2 breadth_first fuel).1.

End Crossing.

(** ** family.cpp: the boat, the persons, the transitions and the costs *)

Module Family.

(** [person_t]: a person is where it is. *)
Module person_t.
Inductive pos_t := shore1 | onboard | shore2.

Global Instance pos_eq_dec : EqDecision pos_t.
Proof. solve_decision. Defined.

Definition pos_to_nat (p : pos_t) : nat :=
  match p with shore1 => 0 | onboard => 1 | shore2 => 2 end.

Definition pos_of_nat (n : nat) : option pos_t :=
  match n with
  | 0 => Some shore1 | 1 => Some onboard | 2 => Some shore2 | _ => None
  end.

Global Instance pos_countable : Countable pos_t.
Proof. refine (inj_countable pos_to_nat pos_of_nat _). by intros []. Defined.

(** The names of the persons index the array. *)
Definition mother : nat := 0.
Definition father : nat := 1.
Definition daughter1 : nat := 2.
Definition daughter2 : nat := 3.
Definition son1 : nat := 4.
Definition son2 : nat := 5.
Definition policeman : nat := 6.
Definition prisoner : nat := 7.
End person_t.

(** [boat_t]: the counters are [uint16_t], numbers below 65536. *)
Module boat_t.
Inductive pos_t := shore1 | travel | shore2.

Global Instance pos_eq_dec : EqDecision pos_t.
Proof. solve_decision. Defined.

Definition pos_to_nat (p : pos_t) : nat :=
  match p with shore1 => 0 | travel => 1 | shore2 => 2 end.

Definition pos_of_nat (n : nat) : option pos_t :=
  match n with
  | 0 => Some shore1 | 1 => Some travel | 2 => Some shore2 | _ => None
  end.

Global Instance pos_countable : Countable pos_t.
Proof. refine (inj_countable pos_to_nat pos_of_nat _). by intros []. Defined.

Record t := Boat {
  pos : pos_t;
  capacity : Z;
  passengers : Z
}.

Global Instance eq_dec : EqDecision t.
Proof. solve_decision. Defined.

Global Instance countable : Countable t.
Proof.
  refine (inj_countable' (λ b, (pos b, capacity b, passengers b))
            (λ '(p, c, n), Boat p c n) _).
  by intros [].
Defined.
End boat_t.

Definition uint16_wrap (n : Z) : Z := (n mod 65536)%Z.

(** [state_t]: the boat and the array of the eight persons. *)
Record state_t := State {
  boat : boat_t.t;
  persons : list person_t.pos_t
}.

Global Instance state_eq_dec : EqDecision state_t.
Proof. solve_decision. Defined.

Global Instance state_countable : Countable state_t.
Proof.
  refine (inj_countable' (λ s, (boat s, persons s)) (λ '(b, ps), State b ps) _).
  by intros [].
Defined.

(** [state_t{}]: the boat at the first shore, empty, with room for two, and
    everybody on the first shore. *)
Definition initial : state_t :=
  State (boat_t.Boat boat_t.shore1 2 0) (replicate 8 person_t.shore1).

Global Instance state_inhabited : Inhabited state_t := populate initial.

Definition set_boat_pos (p : boat_t.pos_t) (state : state_t) : state_t :=
  State (boat_t.Boat p (boat_t.capacity (boat state))
           (boat_t.passengers (boat state)))
        (persons state).

(** The boat arrives: it is emptied, and who was on board is on the shore. *)
Definition arrive (b : boat_t.pos_t) (p : person_t.pos_t) (state : state_t)
    : state_t :=
  State (boat_t.Boat b (boat_t.capacity (boat state)) 0)
        ((λ q, if decide (q = person_t.onboard) then p else q) <$> persons state).

(** Person [i] boards: [++state.boat.passengers]. *)
Definition board (i : nat) (state : state_t) : state_t :=
  State (boat_t.Boat (boat_t.pos (boat state)) (boat_t.capacity (boat state))
           (uint16_wrap (boat_t.passengers (boat state) + 1)))
        (<[i := person_t.onboard]> (persons state)).

(** Person [i] leaves to a shore: [--state.boat.passengers]. *)
Definition leave (i : nat) (p : person_t.pos_t) (state : state_t) : state_t :=
  State (boat_t.Boat (boat_t.pos (boat state)) (boat_t.capacity (boat state))
           (uint16_wrap (boat_t.passengers (boat state) - 1)))
        (<[i := p]> (persons state)).

Definition boat_transitions (s : state_t) : list (state_t → state_t) :=
  match boat_t.pos (boat s) with
  | boat_t.shore1 | boat_t.shore2 =>
      if decide (0 < boat_t.passengers (boat s))%Z
      then [set_boat_pos boat_t.travel] else []
  | boat_t.travel =>
      [arrive boat_t.shore1 person_t.shore1; arrive boat_t.shore2 person_t.shore2]
  end.

Definition person_transitions (s : state_t) (i : nat) : list (state_t → state_t) :=
  match persons s !! i with
  | Some person_t.shore1 =>
      if decide (boat_t.pos (boat s) = boat_t.shore1) then [board i] else []
  | Some person_t.shore2 =>
      if decide (boat_t.pos (boat s) = boat_t.shore2) then [board i] else []
  | Some person_t.onboard =>
      if decide (boat_t.pos (boat s) = boat_t.shore1)
      then [leave i person_t.shore1]
      else if decide (boat_t.pos (boat s) = boat_t.shore2)
      then [leave i person_t.shore2]
      else []
  | None => []
  end.

Definition transitions (s : state_t) : list (state_t → state_t) :=
  foldl (fun res i => res ++ person_transitions s i)
        (boat_transitions s) (seq 0 (length (persons s))).

(** [cost_t]: two [size_t] counters, numbers below 2^64, compared first by
    [depth], then by [noise]. *)
Record cost_t := Cost {
  depth : Z;
  noise : Z
}.

Global Instance cost_inhabited : Inhabited cost_t := populate (Cost 0 0).

Definition cost_lt (c other : cost_t) : bool :=
  if (depth c <? depth other)%Z then true
  else if (depth other <? depth c)%Z then false
  else (noise c <? noise other)%Z.

Definition size_wrap (n : Z) : Z := (n mod 2 ^ 64)%Z.

Definition goal (s : state_t) : bool :=
  forallb (λ p, bool_decide (p = person_t.shore2)) (persons s).

(** The three cost functions of [main]. *)
Definition depth_cost (state : state_t) (prev_cost : cost_t) : cost_t :=
  Cost (size_wrap (depth prev_cost + 1)) (noise prev_cost).

Definition noise_cost (w1 w2 : Z) (state : state_t) (prev_cost : cost_t) : cost_t :=
  let noise0 := noise prev_cost in
  let noise1 :=
    if decide (persons state !! person_t.son1 = Some person_t.shore1)
    then size_wrap (noise0 + w1) else noise0 in
  let noise2 :=
    if decide (persons state !! person_t.son2 = Some person_t.shore1)
    then size_wrap (noise1 + w2) else noise1 in
  Cost (depth prev_cost) noise2.

Definition noise_cost_son1 := noise_cost 2 1.
Definition noise_cost_son2 := noise_cost 1 2.

(** The number of persons on board. *)
Definition on_board (s : state_t) : nat :=
  length (filter (λ p, p = person_t.onboard) (persons s)).

End Family.

(** ** Predicates on the states of the clients *)

(** One step of an actor of crossing.cpp: between a shore and the boat. *)
Definition one_step (p q : Crossing.pos_t) : Prop :=
  (p = Crossing.travel ∧ q ≠ Crossing.travel) ∨
  (p ≠ Crossing.travel ∧ q = Crossing.travel).

(** The transitions that [Crossing.transitions] adds for actor [i]. *)
Definition crossing_moves (actors : Crossing.actors_t) (i : nat)
    : list (Crossing.actors_t → Crossing.actors_t) :=
  match actors !! i with
  | Some Crossing.shore1 => [Crossing.move i Crossing.travel]
  | Some Crossing.travel =>
      [Crossing.move i Crossing.shore1; Crossing.move i Crossing.shore2]
  | Some Crossing.shore2 => [Crossing.move i Crossing.travel]
  | None => []
  end.

(** The arrays of three positions. *)
Definition crossing_states : list Crossing.actors_t :=
  let positions := [Crossing.shore1; Crossing.travel; Crossing.shore2] in
  a ← positions; b ← positions; c ← positions; [[a; b; c]].

(** The crossing of the sample output of crossing.cpp. *)
Definition crossing_trace : list Crossing.actors_t :=
  [ [Crossing.shore1; Crossing.shore1; Crossing.shore1];
    [Crossing.shore1; Crossing.travel; Crossing.shore1];
    [Crossing.shore1; Crossing.shore2; Crossing.shore1];
    [Crossing.travel; Crossing.shore2; Crossing.shore1];
    [Crossing.shore2; Crossing.shore2; Crossing.shore1];
    [Crossing.shore2; Crossing.travel; Crossing.shore1];
    [Crossing.shore2; Crossing.shore1; Crossing.shore1];
    [Crossing.shore2; Crossing.shore1; Crossing.travel];
    [Crossing.shore2; Crossing.shore1; Crossing.shore2];
    [Crossing.shore2; Crossing.travel; Crossing.shore2];
    [Crossing.shore2; Crossing.shore2; Crossing.shore2] ].

(** The engine of crossing.cpp under an invariant that, on top of
    [is_valid], rejects the start. *)
Definition crossing_start_rejected : state_space_t Crossing.actors_t Z :=
  make_default_state_space Crossing.start (successors Crossing.transitions)
    (λ actors, Crossing.is_valid actors && bool_decide (actors ≠ Crossing.start)).

(** The lists of a given length over the elements of a list. *)
Fixpoint lists_of {A : Type} (xs : list A) (n : nat) : list (list A) :=
  match n with
  | O => [[]]
  | S k => x ← xs; l ← lists_of xs k; [x :: l]
  end.

(** The states of family.cpp with eight persons, a boat for two and a
    counter of at most eight. *)
Definition family_states : list Family.state_t :=
  p ← [Family.boat_t.shore1; Family.boat_t.travel; Family.boat_t.shore2];
  n ← seq 0 9;
  l ← lists_of [Family.person_t.shore1; Family.person_t.onboard;
                Family.person_t.shore2] 8;
  [Family.State (Family.boat_t.Boat p 2 (Z.of_nat n)) l].

(** In family.cpp the counter of the boat says how many persons are on
    board. *)
Definition passengers_counted (s : Family.state_t) : Prop :=
  Family.boat_t.passengers (Family.boat s) = Z.of_nat (Family.on_board s).

(** ** An engine that is searched twice

    A small state graph, 1 -> 2, 1 -> 3, 2 -> 4, 3 -> 4, with a cost function
    that reads the previous cost. *)

Module Rerun.

Definition succ (s : Z) : list Z :=
  if (s =? 1)%Z then [2%Z; 3%Z]
  else if ((s =? 2) || (s =? 3))%Z then [4%Z]
  else [].

Definition cost (s prev_cost : Z) : Z :=
  if (prev_cost <? 0)%Z then s else (- s)%Z.

Definition goal (s : Z) : bool := (s =? 4)%Z.

Definition engine : state_space_t Z Z :=
  make_state_space 1%Z 0%Z succ default_invariant cost.

End Rerun.

(** ** Predicates used to state the properties *)

Section Predicates.
Context {State_t : Type} `{Countable State_t} `{Inhabited State_t}.
Context {Cost_t : Type} `{Inhabited Cost_t}.
Variable sp : state_space_t State_t Cost_t.

(** [path_to x l]: [l] starts at the initial state and ends at [x], every
    step goes to a successor that the invariant accepts. *)
Inductive path_to : State_t → list State_t → Prop :=
  | path_initial : path_to (initial_state sp) [initial_state sp]
  | path_step p x l :
      path_to p l →
      x ∈ successors_function sp p →
      invariant sp x = true →
      path_to x (l ++ [x]).

Variable goal_pred : State_t → bool.

(** What every turn of the loop of [check] preserves, for every search
    order.  [d] is the number of steps from the initial state along the
    trace map. *)
Record run_inv (d : State_t → nat) (r : run_t State_t Cost_t) : Prop := {
  inv_nodup : NoDup (passed r ++ waiting r);
  inv_initial : initial_state sp ∈ passed r ++ waiting r;
  inv_initial_depth : d (initial_state sp) = 0;
  inv_trace : ∀ x,
    x ∈ passed r ++ waiting r → x ≠ initial_state sp →
    ∃ p, trace r !! x = Some p ∧ p ∈ passed r ∧ d x = S (d p) ∧
         x ∈ successors_function sp p ∧ invariant sp x = true;
  inv_depth_bound : ∀ x, x ∈ passed r ++ waiting r → d x ≤ length (passed r);
  inv_not_goal : ∀ p, p ∈ passed r → goal_pred p = false;
  inv_closed : ∀ p c,
    p ∈ passed r → c ∈ successors_function sp p → invariant sp c = true →
    c ∈ passed r ++ waiting r
}.

(** What breadth-first order preserves on top of it: states leave the
    deque in the order of their depth, and the deque spans at most two
    consecutive depths. *)
Record bfs_inv (d : State_t → nat) (r : run_t State_t Cost_t) : Prop := {
  bfs_passed_below : ∀ p w, p ∈ passed r → w ∈ waiting r → d p ≤ d w;
  bfs_sorted : StronglySorted (λ x y, d x ≤ d y) (waiting r);
  bfs_span : ∀ h w, head (waiting r) = Some h → w ∈ waiting r → d w ≤ S (d h);
  bfs_closed_depth : ∀ p c,
    p ∈ passed r → c ∈ successors_function sp p → invariant sp c = true →
    d c ≤ S (d p)
}.

(** A turn of the loop that does not leave it: [curr] is taken out of the
    deque [l1 ++ curr :: l2], put at the end of the passed states, and the
    accepted successors [new] are appended. *)
Record turn (r r' : run_t State_t Cost_t)
    (l1 : list State_t) (curr : State_t) (l2 new : list State_t) : Prop := {
  turn_waiting : waiting r = l1 ++ curr :: l2;
  turn_not_goal : goal_pred curr = false;
  turn_passed : passed r' = passed r ++ [curr];
  turn_waiting' : waiting r' = (l1 ++ l2) ++ new;
  turn_nodup : NoDup new;
  turn_new : ∀ x,
    x ∈ new ↔
    x ∈ successors_function sp curr ∧ invariant sp x = true ∧
    x ∉ l1 ++ l2 ∧ x ∉ passed r ++ [curr];
  turn_trace_new : ∀ x, x ∈ new → trace r' !! x = Some curr;
  turn_trace_old : ∀ x, x ∉ new → trace r' !! x = trace r !! x
}.

(** The depths after such a turn. *)
Definition depth_after (d : State_t → nat) (curr : State_t)
    (new : list State_t) : State_t → nat :=
  λ x, if decide (x ∈ new) then S (d curr) else d x.

(** Two engines that differ at most in what the invariant says of the
    initial state. *)
Definition same_but_invariant_at_initial
    (sp' : state_space_t State_t Cost_t) : Prop :=
  initial_state sp' = initial_state sp ∧
  successors_function sp' = successors_function sp ∧
  cost_function sp' = cost_function sp ∧
  previous_cost sp' = previous_cost sp ∧
  initial_cost sp' = initial_cost sp ∧
  ∀ s, s ≠ initial_state sp → invariant sp' s = invariant sp s.

(** Two runs that agree on the locals of [check] (the running cost left
    aside), and two outcomes of a turn that agree in the same way. *)
Definition same_run (r1 r2 : run_t State_t Cost_t) : Prop :=
  waiting r1 = waiting r2 ∧ passed r1 = passed r2 ∧ trace r1 = trace r2.

Definition same_step (s1 s2 : step_t State_t Cost_t) : Prop :=
  match s1, s2 with
  | Exhausted _, Exhausted _ => True
  | GoalFound c1 t1 _, GoalFound c2 t2 _ => c1 = c2 ∧ t1 = t2
  | Continue r1, Continue r2 => same_run r1 r2
  | _, _ => False
  end.

End Predicates.

(** ** Selection: [min_element] and [popstate] *)

Section Selection.
Context {State_t : Type} `{Countable State_t} `{Inhabited State_t}.
Context {Cost_t : Type} `{Inhabited Cost_t}.
Variable cost_lt : Cost_t → Cost_t → bool.

Lemma min_element_from_lt smallest sv first rest :
  smallest < first →
  min_element_from cost_lt smallest sv first rest < first + length rest.
Proof.
  revert smallest sv first. induction rest as [|c rest IH]; intros s sv f Hlt; simpl.
  - lia.
  - destruct (cost_lt c sv).
    + specialize (IH f c (S f)). lia.
    + specialize (IH s sv (S f)). lia.
Qed.

Lemma min_element_lt costs :
  costs ≠ [] → min_element cost_lt costs < length costs.
Proof.
  destruct costs as [|c rest]; [done|]. intros _. simpl.
  pose proof (min_element_from_lt 0 c 1 rest). lia.
Qed.

(** With a constant list nothing is ever strictly smaller, the scan keeps
    its first candidate. *)
Lemma min_element_from_const smallest sv first rest :
  cost_lt sv sv = false →
  Forall (λ c, c = sv) rest →
  min_element_from cost_lt smallest sv first rest = smallest.
Proof.
  intros Hirr. revert first. induction rest as [|c rest IH]; intros f Hall; simpl.
  - done.
  - inversion Hall; subst. rewrite Hirr. by apply IH.
Qed.

Section StrictWeakOrder.
(** [operator<] of the costs is a strict weak ordering, as
    [std::min_element] requires. *)
Hypothesis lt_irrefl : ∀ a, cost_lt a a = false.
Hypothesis lt_trans : ∀ a b c,
  cost_lt a b = true → cost_lt b c = true → cost_lt a c = true.
Hypothesis lt_cotrans : ∀ a b c,
  cost_lt a c = true → cost_lt a b = true ∨ cost_lt b c = true.

Lemma min_element_from_spec pre rest smallest sv :
  pre !! smallest = Some sv →
  (∀ j c, pre !! j = Some c → cost_lt c sv = false) →
  (∀ j c, j < smallest → pre !! j = Some c → cost_lt sv c = true) →
  ∃ v, (pre ++ rest) !! min_element_from cost_lt smallest sv (length pre) rest = Some v ∧
       (∀ j c, (pre ++ rest) !! j = Some c → cost_lt c v = false) ∧
       (∀ j c, j < min_element_from cost_lt smallest sv (length pre) rest →
               (pre ++ rest) !! j = Some c → cost_lt v c = true).
Proof.
  revert pre smallest sv.
  induction rest as [|c rest IH]; intros pre s sv Hs Hmin Hfirst; simpl.
  - rewrite app_nil_r. eauto.
  - replace (pre ++ c :: rest) with ((pre ++ [c]) ++ rest)
      by (by rewrite <- app_assoc).
    replace (S (length pre)) with (length (pre ++ [c]))
      by (rewrite length_app; simpl; lia).
    destruct (cost_lt c sv) eqn:Hc.
    + apply IH.
      * rewrite lookup_app_r by lia.
        by replace (length pre - length pre) with 0 by lia.
      * intros j c' Hj. apply lookup_app_Some in Hj as [Hj|[_ Hj]].
        -- destruct (cost_lt c' c) eqn:Hc'; [|done].
           rewrite <- (Hmin j c' Hj). symmetry. by eapply lt_trans.
        -- apply list_lookup_singleton_Some in Hj as [_ <-]. apply lt_irrefl.
      * intros j c' Hlt Hj. rewrite lookup_app_l in Hj by lia.
        destruct (lt_cotrans c c' sv Hc) as [?|Hbad]; [done|].
        by rewrite (Hmin j c' Hj) in Hbad.
    + apply IH.
      * apply lookup_app_l_Some. done.
      * intros j c' Hj. apply lookup_app_Some in Hj as [Hj|[_ Hj]].
        -- by eapply Hmin.
        -- by apply list_lookup_singleton_Some in Hj as [_ <-].
      * intros j c' Hlt Hj.
        apply lookup_lt_Some in Hs.
        rewrite lookup_app_l in Hj by lia. by eapply Hfirst.
Qed.

Lemma min_element_spec costs :
  costs ≠ [] →
  ∃ v, costs !! min_element cost_lt costs = Some v ∧
       (∀ j c, costs !! j = Some c → cost_lt c v = false) ∧
       (∀ j c, j < min_element cost_lt costs → costs !! j = Some c →
               cost_lt v c = true).
Proof.
  destruct costs as [|c rest]; [done|]. intros _. simpl.
  apply (min_element_from_spec [c] rest 0 c).
  - done.
  - intros [|j] c'; simpl; [|done]. intros [= <-]. apply lt_irrefl.
  - intros j c' Hj. lia.
Qed.
End StrictWeakOrder.

End Selection.

Section PopState.
Context {State_t : Type} `{Countable State_t} `{Inhabited State_t}.
Context {Cost_t : Type} `{Inhabited Cost_t}.
Variable cost_lt : Cost_t → Cost_t → bool.
Variable sp : state_space_t State_t Cost_t.

Lemma popstate_breadth_first h t prev_cost :
  popstate cost_lt sp (h :: t) breadth_first prev_cost = (h, t, prev_cost).
Proof. reflexivity. Qed.

Lemma popstate_depth_first l x prev_cost :
  popstate cost_lt sp (l ++ [x]) depth_first prev_cost = (x, l, prev_cost).
Proof. unfold popstate. by rewrite last_snoc, removelast_last. Qed.

(** Cost-guided selection in terms of the index found by [min_element]. *)
Lemma popstate_cost_guided_index waiting prev_cost :
  waiting ≠ [] →
  ∃ index state,
    index = min_element cost_lt
              ((λ s, cost_function sp s prev_cost) <$> waiting) ∧
    waiting !! index = Some state ∧
    popstate cost_lt sp waiting cost_guided prev_cost =
      (state, delete index waiting, cost_function sp state prev_cost).
Proof.
  intros Hne. set (costs := (λ s, cost_function sp s prev_cost) <$> waiting).
  assert (Hlt : min_element cost_lt costs < length waiting).
  { rewrite <- (length_fmap (λ s, cost_function sp s prev_cost)).
    apply min_element_lt. subst costs. by destruct waiting. }
  destruct (lookup_lt_is_Some_2 _ _ Hlt) as [state Hstate].
  exists (min_element cost_lt costs), state. split; [done|]. split; [done|].
  unfold popstate. fold costs.
  rewrite (list_lookup_total_correct _ _ _ Hstate).
  rewrite (list_lookup_total_correct costs _ (cost_function sp state prev_cost)); [done|].
  subst costs. by rewrite list_lookup_fmap, Hstate.
Qed.

(** Whatever the order, the selected state is one element of the deque and
    the others stay, in their order. *)
Lemma popstate_split waiting order prev_cost :
  waiting ≠ [] →
  ∃ l1 state l2 prev_cost',
    waiting = l1 ++ state :: l2 ∧
    popstate cost_lt sp waiting order prev_cost = (state, l1 ++ l2, prev_cost') ∧
    (order = breadth_first → l1 = []) ∧
    (order ≠ cost_guided → prev_cost' = prev_cost).
Proof.
  intros Hne. destruct order.
  - destruct (exists_last Hne) as (l & x & ->).
    exists l, x, [], prev_cost. rewrite app_nil_r.
    by rewrite popstate_depth_first.
  - destruct waiting as [|h t]; [done|].
    exists [], h, t, prev_cost. by rewrite popstate_breadth_first.
  - destruct (popstate_cost_guided_index waiting prev_cost Hne)
      as (index & state & _ & Hstate & ->).
    destruct (list_elem_of_split_length _ _ _ Hstate) as (l1 & l2 & -> & ->).
    exists l1, state, l2, (cost_function sp state prev_cost).
    split; [done|]. split; [|done].
    by rewrite delete_middle.
Qed.

End PopState.

(** ** Expansion of a state *)

Section Expansion.
Context {State_t : Type} `{Countable State_t} `{Inhabited State_t}.
Context {Cost_t : Type} `{Inhabited Cost_t}.
Variable sp : state_space_t State_t Cost_t.

Lemma visit_accept curr ps w t c :
  invariant sp c = true → c ∉ w → c ∉ ps →
  visit sp curr ps (w, t) c = (w ++ [c], <[c := curr]> t).
Proof.
  intros Hinv Hw Hp. unfold visit; simpl.
  by rewrite Hinv, !bool_decide_eq_true_2.
Qed.

Lemma visit_reject curr ps w t c :
  ¬ (invariant sp c = true ∧ c ∉ w ∧ c ∉ ps) →
  visit sp curr ps (w, t) c = (w, t).
Proof.
  intros Hno. unfold visit; simpl.
  destruct (invariant sp c) eqn:Hinv; [|done].
  destruct (decide (c ∉ w)) as [Hw|Hw];
    [|by rewrite (bool_decide_eq_false_2 _ Hw)].
  destruct (decide (c ∉ ps)) as [Hp|Hp];
    [|by rewrite (bool_decide_eq_false_2 _ Hp), andb_false_r].
  destruct Hno. done.
Qed.

(** The [for] loop over a list of candidates appends the accepted ones and
    records their predecessor; nothing else changes. *)
Lemma foldl_visit curr ps succs : ∀ w t,
  ∃ new,
    foldl (visit sp curr ps) (w, t) succs =
      (w ++ new, (foldl (visit sp curr ps) (w, t) succs).2) ∧
    NoDup new ∧
    (∀ x, x ∈ new ↔
          x ∈ succs ∧ invariant sp x = true ∧ x ∉ w ∧ x ∉ ps) ∧
    (∀ x, x ∈ new →
          (foldl (visit sp curr ps) (w, t) succs).2 !! x = Some curr) ∧
    (∀ x, x ∉ new →
          (foldl (visit sp curr ps) (w, t) succs).2 !! x = t !! x).
Proof.
  induction succs as [|c succs IH]; intros w t; simpl.
  - exists []. rewrite app_nil_r. split_and!; try done.
    + constructor.
    + intros x. split; [by intros ?%elem_of_nil | by intros [?%elem_of_nil _]].
    + by intros x ?%elem_of_nil.
  - destruct (decide (invariant sp c = true ∧ c ∉ w ∧ c ∉ ps)) as [(Hi & Hw & Hp)|Hno].
    + rewrite (visit_accept _ _ _ _ _ Hi Hw Hp).
      destruct (IH (w ++ [c]) (<[c := curr]> t)) as (new & Heq & Hnd & Hin & Hnew & Hold).
      exists (c :: new). rewrite Heq at 1. rewrite <- app_assoc. simpl.
      assert (Hc : c ∉ new).
      { intros (_ & _ & Hcw & _)%Hin. apply Hcw. set_solver. }
      split_and!.
      * done.
      * by constructor.
      * intros x. rewrite elem_of_cons, Hin. split.
        -- intros [->|(? & ? & Hxw & ?)]; [set_solver|].
           split_and!; [set_solver|done|set_solver|done].
        -- intros (Hx & ? & ? & ?). destruct (decide (x = c)) as [->|Hne]; [by left|].
           right. split_and!; [set_solver|done|set_solver|done].
      * intros x [->|Hx]%elem_of_cons; [|by apply Hnew].
        by rewrite (Hold _ Hc), lookup_insert_eq.
      * intros x Hx. rewrite Hold by set_solver.
        apply lookup_insert_ne. set_solver.
    + rewrite (visit_reject _ _ _ _ _ Hno).
      destruct (IH w t) as (new & Heq & Hnd & Hin & Hnew & Hold).
      exists new. split_and!; try done.
      intros x. rewrite Hin. split.
      * intros (? & ? & ? & ?). split_and!; [set_solver|done..].
      * intros ([->|?]%elem_of_cons & ? & ? & ?); [by destruct Hno|done].
Qed.

Lemma expand_spec curr ps w t :
  ∃ new t',
    expand sp curr ps (w, t) = (w ++ new, t') ∧
    NoDup new ∧
    (∀ x, x ∈ new ↔
          x ∈ successors_function sp curr ∧ invariant sp x = true ∧
          x ∉ w ∧ x ∉ ps) ∧
    (∀ x, x ∈ new → t' !! x = Some curr) ∧
    (∀ x, x ∉ new → t' !! x = t !! x).
Proof.
  destruct (foldl_visit curr ps (successors_function sp curr) w t)
    as (new & Heq & ?).
  exists new, (expand sp curr ps (w, t)).2. by split.
Qed.

End Expansion.

(** ** One turn of the loop of [check] *)

Section LoopBody.
Context {State_t : Type} `{Countable State_t} `{Inhabited State_t}.
Context {Cost_t : Type} `{Inhabited Cost_t}.
Variable cost_lt : Cost_t → Cost_t → bool.
Variable sp : state_space_t State_t Cost_t.
Variable goal_pred : State_t → bool.
Variable search_order : search_order_t.

Local Abbreviation body := (loop_body cost_lt sp goal_pred search_order).

Lemma loop_body_Exhausted r prev_cost :
  body r = Exhausted prev_cost ↔
  waiting r = [] ∧ prev_cost = running_cost r.
Proof.
  unfold loop_body. destruct (waiting r) as [|h t] eqn:Hw.
  - split; [by intros [= <-] | by intros [_ ->]].
  - destruct (popstate _ _ _ _ _) as [[curr w'] pc].
    destruct (goal_pred curr); [by split; [|intros [? _]]|].
    destruct (expand _ _ _ _). by split; [|intros [? _]].
Qed.

Lemma loop_body_GoalFound r curr t prev_cost :
  body r = GoalFound curr t prev_cost →
  ∃ l1 l2,
    waiting r = l1 ++ curr :: l2 ∧ goal_pred curr = true ∧ t = trace r ∧
    popstate cost_lt sp (waiting r) search_order (running_cost r) =
      (curr, l1 ++ l2, prev_cost) ∧
    (search_order = breadth_first → l1 = []).
Proof.
  unfold loop_body. destruct (waiting r) as [|h t'] eqn:Hw; [done|].
  destruct (popstate_split cost_lt sp (h :: t') search_order (running_cost r))
    as (l1 & s & l2 & pc & Hsplit & Hpop & Hbfs & _); [done|].
  rewrite Hpop. destruct (goal_pred s) eqn:Hg.
  - intros [= <- <- <-]. exists l1, l2. by rewrite Hsplit.
  - by destruct (expand _ _ _ _).
Qed.

Lemma loop_body_Continue r r' :
  body r = Continue r' →
  ∃ l1 curr l2 new,
    turn sp goal_pred r r' l1 curr l2 new ∧
    popstate cost_lt sp (waiting r) search_order (running_cost r) =
      (curr, l1 ++ l2, running_cost r') ∧
    (search_order = breadth_first → l1 = []).
Proof.
  unfold loop_body. destruct (waiting r) as [|h t'] eqn:Hw; [done|].
  destruct (popstate_split cost_lt sp (h :: t') search_order (running_cost r))
    as (l1 & s & l2 & pc & Hsplit & Hpop & Hbfs & _); [done|].
  rewrite Hpop. destruct (goal_pred s) eqn:Hg; [done|].
  destruct (expand_spec sp s (passed r ++ [s]) (l1 ++ l2) (trace r))
    as (new & t'' & -> & Hnd & Hin & Hnew & Hold).
  intros [= <-]. exists l1, s, l2, new. simpl.
  split; [|done]. split; simpl; try done. by rewrite Hw.
Qed.

(** The three outcomes of a turn, by cases on the deque. *)
Lemma loop_body_cases r :
  (waiting r = [] ∧ body r = Exhausted (running_cost r)) ∨
  (∃ curr prev_cost, body r = GoalFound curr (trace r) prev_cost) ∨
  (∃ r', body r = Continue r').
Proof.
  destruct (body r) as [pc|curr t pc|r'] eqn:Hb.
  - left. by apply loop_body_Exhausted in Hb as [? ->].
  - right; left. destruct (loop_body_GoalFound _ _ _ _ Hb) as (? & ? & _ & _ & -> & _).
    eauto.
  - right; right. eauto.
Qed.

End LoopBody.

(** ** Invariants of the loop *)

Section Invariants.
Context {State_t : Type} `{Countable State_t} `{Inhabited State_t}.
Context {Cost_t : Type} `{Inhabited Cost_t}.
Variable sp : state_space_t State_t Cost_t.
Variable goal_pred : State_t → bool.

Local Abbreviation known r := (passed r ++ waiting r).

Lemma run_inv_initial_run :
  run_inv sp goal_pred (λ _, 0) (initial_run sp).
Proof.
  split; simpl.
  - apply NoDup_singleton.
  - set_solver.
  - done.
  - intros x ->%list_elem_of_singleton Hx. done.
  - intros; lia.
  - by intros p ?%elem_of_nil.
  - by intros p c ?%elem_of_nil.
Qed.

Section Turn.
Variables (d : State_t → nat) (r r' : run_t State_t Cost_t).
Variables (l1 : list State_t) (curr : State_t) (l2 new : list State_t).
Hypothesis Hinv : run_inv sp goal_pred d r.
Hypothesis Hturn : turn sp goal_pred r r' l1 curr l2 new.

Lemma turn_known x : x ∈ known r' ↔ x ∈ known r ∨ x ∈ new.
Proof.
  rewrite (turn_passed _ _ _ _ _ _ _ _ Hturn), (turn_waiting' _ _ _ _ _ _ _ _ Hturn),
    (turn_waiting _ _ _ _ _ _ _ _ Hturn).
  set_solver.
Qed.

Lemma turn_fresh x : x ∈ new → x ∉ known r.
Proof.
  intros (_ & _ & Hw & Hp)%(turn_new _ _ _ _ _ _ _ _ Hturn).
  rewrite (turn_waiting _ _ _ _ _ _ _ _ Hturn). set_solver.
Qed.

Lemma depth_after_known x :
  x ∈ known r → depth_after d curr new x = d x.
Proof.
  intros Hx. unfold depth_after. destruct (decide (x ∈ new)) as [Hn|]; [|done].
  by apply turn_fresh in Hn.
Qed.

Lemma depth_after_new x :
  x ∈ new → depth_after d curr new x = S (d curr).
Proof. intros Hx. unfold depth_after. by rewrite decide_True. Qed.

Lemma turn_curr_known : curr ∈ known r.
Proof. rewrite (turn_waiting _ _ _ _ _ _ _ _ Hturn). set_solver. Qed.

Lemma turn_nodup_known : NoDup (known r').
Proof.
  pose proof (inv_nodup _ _ _ _ Hinv) as Hnd.
  rewrite (turn_passed _ _ _ _ _ _ _ _ Hturn), (turn_waiting' _ _ _ _ _ _ _ _ Hturn).
  rewrite (turn_waiting _ _ _ _ _ _ _ _ Hturn) in Hnd.
  assert (Hperm : (passed r ++ [curr]) ++ (l1 ++ l2) ++ new
                    ≡ₚ (passed r ++ l1 ++ curr :: l2) ++ new).
  { rewrite <- !app_assoc. apply Permutation_app_head. simpl.
    apply Permutation_middle. }
  rewrite Hperm. apply NoDup_app. split_and!; [done| |apply Hturn].
  intros x Hx Hn. apply turn_fresh in Hn.
  by rewrite (turn_waiting _ _ _ _ _ _ _ _ Hturn) in Hn.
Qed.

Lemma run_inv_turn : run_inv sp goal_pred (depth_after d curr new) r'.
Proof.
  pose proof turn_curr_known as Hcurr.
  split.
  - apply turn_nodup_known.
  - apply turn_known. left. apply Hinv.
  - rewrite depth_after_known by apply Hinv. apply Hinv.
  - intros x [Hx|Hx]%turn_known Hne.
    + destruct (inv_trace _ _ _ _ Hinv x Hx Hne) as (p & Ht & Hp & Hd & Hs & Hi).
      exists p. split_and!; try done.
      * rewrite (turn_trace_old _ _ _ _ _ _ _ _ Hturn); [done|].
        intros Hn. by apply turn_fresh in Hn.
      * rewrite (turn_passed _ _ _ _ _ _ _ _ Hturn). set_solver.
      * rewrite !depth_after_known; [done| |done]. set_solver.
    + exists curr.
      pose proof (proj1 (turn_new _ _ _ _ _ _ _ _ Hturn x) Hx) as (Hs & Hi & _).
      split_and!; try done.
      * by apply (turn_trace_new _ _ _ _ _ _ _ _ Hturn).
      * rewrite (turn_passed _ _ _ _ _ _ _ _ Hturn). set_solver.
      * by rewrite depth_after_new, depth_after_known.
  - intros x Hx. rewrite (turn_passed _ _ _ _ _ _ _ _ Hturn), length_app. simpl.
    apply turn_known in Hx as [Hx|Hx].
    + rewrite depth_after_known by done.
      pose proof (inv_depth_bound _ _ _ _ Hinv x Hx). lia.
    + rewrite depth_after_new by done.
      pose proof (inv_depth_bound _ _ _ _ Hinv curr Hcurr). lia.
  - intros p. rewrite (turn_passed _ _ _ _ _ _ _ _ Hturn).
    intros [Hp| ->%list_elem_of_singleton]%elem_of_app.
    + by apply Hinv.
    + apply Hturn.
  - intros p c Hp Hs Hi. rewrite (turn_passed _ _ _ _ _ _ _ _ Hturn) in Hp.
    apply elem_of_app in Hp as [Hp| ->%list_elem_of_singleton]; apply turn_known.
    + left. by eapply (inv_closed _ _ _ _ Hinv).
    + destruct (decide (c ∈ new)) as [|Hn]; [by right|]. left.
      rewrite (turn_new _ _ _ _ _ _ _ _ Hturn) in Hn.
      rewrite (turn_waiting _ _ _ _ _ _ _ _ Hturn).
      destruct (decide (c ∈ l1 ++ l2)); [set_solver|].
      destruct (decide (c ∈ passed r ++ [curr])); [set_solver|].
      destruct Hn. done.
Qed.
End Turn.

Lemma StronglySorted_depth_ext (d d' : State_t → nat) l :
  (∀ x, x ∈ l → d' x = d x) →
  StronglySorted (λ x y, d x ≤ d y) l →
  StronglySorted (λ x y, d' x ≤ d' y) l.
Proof.
  intros Hext Hs. induction Hs as [|a l Hs IH Hall]; constructor.
  - apply IH. intros x Hx. apply Hext. set_solver.
  - rewrite Forall_forall in Hall. apply Forall_forall. intros y Hy.
    rewrite !Hext by set_solver. by apply Hall.
Qed.

Lemma StronglySorted_depth_const (d : State_t → nat) n l :
  (∀ x, x ∈ l → d x = n) → StronglySorted (λ x y, d x ≤ d y) l.
Proof.
  intros Hc. induction l as [|a l IH]; constructor.
  - apply IH. intros x Hx. apply Hc. set_solver.
  - apply Forall_forall. intros y Hy. rewrite !Hc by set_solver. done.
Qed.

(** A breadth-first turn takes the head of the deque. *)
Section BfsTurn.
Variables (d : State_t → nat) (r r' : run_t State_t Cost_t).
Variables (curr : State_t) (l2 new : list State_t).
Hypothesis Hinv : run_inv sp goal_pred d r.
Hypothesis Hbfs : bfs_inv sp d r.
Hypothesis Hturn : turn sp goal_pred r r' [] curr l2 new.

Local Abbreviation d' := (depth_after d curr new).

Lemma bfs_inv_turn : bfs_inv sp d' r'.
Proof.
  pose proof (turn_waiting _ _ _ _ _ _ _ _ Hturn) as Hw. simpl in Hw.
  pose proof (turn_waiting' _ _ _ _ _ _ _ _ Hturn) as Hw'. simpl in Hw'.
  pose proof (turn_passed _ _ _ _ _ _ _ _ Hturn) as Hp'.
  pose proof (bfs_sorted _ _ _ Hbfs) as Hsorted. rewrite Hw in Hsorted.
  apply StronglySorted_inv in Hsorted as [Hsorted Hhead].
  rewrite Forall_forall in Hhead.
  assert (Hspan : ∀ w, w ∈ l2 → d w ≤ S (d curr)).
  { intros w Hin. apply (bfs_span _ _ _ Hbfs); rewrite Hw; [done|set_solver]. }
  assert (Hbelow : ∀ p, p ∈ passed r → d p ≤ d curr).
  { intros p Hp. apply (bfs_passed_below _ _ _ Hbfs); [done|].
    rewrite Hw. set_solver. }
  assert (Hold : ∀ x, x ∈ passed r ∨ x = curr ∨ x ∈ l2 → d' x = d x).
  { intros x Hx. apply (depth_after_known d r r' [] curr l2 new Hinv Hturn).
    rewrite Hw. set_solver. }
  assert (Hnew : ∀ x, x ∈ new → d' x = S (d curr)).
  { intros x Hx. by apply depth_after_new. }
  assert (Hup : ∀ w, w ∈ waiting r' → d curr ≤ d' w ∧ d' w ≤ S (d curr)).
  { intros w. rewrite Hw'. intros [Hin|Hin]%elem_of_app.
    - rewrite Hold by auto. split; [by apply Hhead | by apply Hspan].
    - rewrite Hnew by done. lia. }
  assert (Hdown : ∀ p, p ∈ passed r' → d' p ≤ d curr).
  { intros p. rewrite Hp'. intros [Hin| ->%list_elem_of_singleton]%elem_of_app.
    - rewrite Hold by auto. by apply Hbelow.
    - rewrite Hold by auto. done. }
  split.
  - intros p w Hp Hin. specialize (Hdown p Hp). specialize (Hup w Hin). lia.
  - rewrite Hw'. apply StronglySorted_app_2.
    + intros x1 x2 Hx1 Hx2. rewrite (Hnew _ Hx2), Hold by auto. by apply Hspan.
    + apply (StronglySorted_depth_ext d); [|done]. intros x Hx. by apply Hold; auto.
    + by apply (StronglySorted_depth_const _ (S (d curr))).
  - intros h w Hh Hin. apply head_Some_elem_of in Hh.
    pose proof (Hup h Hh). pose proof (Hup w Hin). lia.
  - intros p c Hp Hs Hi. rewrite Hp' in Hp.
    apply elem_of_app in Hp as [Hp| ->%list_elem_of_singleton].
    + pose proof (inv_closed _ _ _ _ Hinv p c Hp Hs Hi) as Hc.
      rewrite !(depth_after_known d r r' [] curr l2 new Hinv Hturn);
        [|set_solver|done].
      by apply (bfs_closed_depth _ _ _ Hbfs).
    + rewrite (Hold curr) by auto.
      destruct (decide (c ∈ new)) as [Hn|Hn]; [by rewrite Hnew|].
      rewrite (turn_new _ _ _ _ _ _ _ _ Hturn) in Hn. simpl in Hn.
      destruct (decide (c ∈ l2)) as [Hl|Hl].
      { rewrite Hold by auto. by apply Hspan. }
      destruct (decide (c ∈ passed r ++ [curr])) as [Hc|Hc]; [|by destruct Hn].
      apply elem_of_app in Hc as [Hc| ->%list_elem_of_singleton].
      * rewrite Hold by auto. specialize (Hbelow c Hc). lia.
      * rewrite Hold by auto. lia.
Qed.
End BfsTurn.

Lemma bfs_inv_initial_run : bfs_inv sp (λ _, 0) (initial_run sp).
Proof.
  split; simpl.
  - by intros p w ?%elem_of_nil.
  - repeat constructor.
  - intros; lia.
  - intros; lia.
Qed.

End Invariants.

(** ** Reading the solution off the trace map *)

Section Backtrack.
Context {State_t : Type} `{Countable State_t} `{Inhabited State_t}.
Context {Cost_t : Type} `{Inhabited Cost_t}.
Variable sp : state_space_t State_t Cost_t.
Variable goal_pred : State_t → bool.

(** From a state that the run knows, the backward walk stops after as many
    steps as the depth of the state, and yields a path to it. *)
Lemma backtrack_spec d r :
  run_inv sp goal_pred d r →
  ∀ n x, d x = n → x ∈ passed r ++ waiting r →
  ∃ chain,
    path_to sp x chain ∧ length chain = S n ∧
    ∀ fuel acc,
      backtrack sp fuel (trace r) x (x :: acc) =
        if decide (n < fuel) then Some (chain ++ acc) else None.
Proof.
  intros Hinv. induction n as [|n IH]; intros x Hd Hx.
  - assert (x = initial_state sp) as ->.
    { destruct (decide (x = initial_state sp)) as [|Hne]; [done|].
      destruct (inv_trace _ _ _ _ Hinv x Hx Hne) as (p & _ & _ & Hdp & _). lia. }
    exists [initial_state sp]. split_and!; [constructor|done|].
    intros [|fuel] acc; simpl; [done|]. by rewrite decide_True.
  - assert (Hne : x ≠ initial_state sp).
    { intros ->. rewrite (inv_initial_depth _ _ _ _ Hinv) in Hd. lia. }
    destruct (inv_trace _ _ _ _ Hinv x Hx Hne) as (p & Ht & Hp & Hdp & Hs & Hi).
    destruct (IH p) as (chain & Hpath & Hlen & Hwalk); [lia|set_solver|].
    exists (chain ++ [x]). split_and!.
    + by econstructor.
    + rewrite length_app; simpl. lia.
    + intros [|fuel] acc; simpl; [done|]. rewrite decide_False by done.
      unfold trace_index. rewrite Ht, Hwalk, <- app_assoc. simpl.
      destruct (decide (n < fuel)), (decide (S n < S fuel)); (done || lia).
Qed.

Lemma path_to_head x l : path_to sp x l → l !! 0 = Some (initial_state sp).
Proof.
  induction 1 as [|p x l Hp IH Hs Hi]; [done|].
  by apply lookup_app_l_Some.
Qed.

Lemma path_to_last x l : path_to sp x l → last l = Some x.
Proof. destruct 1; [done|]. apply last_snoc. Qed.

Lemma path_to_adjacent x l :
  path_to sp x l →
  ∀ i a b, l !! i = Some a → l !! S i = Some b →
    b ∈ successors_function sp a ∧ invariant sp b = true.
Proof.
  induction 1 as [|p x l Hp IH Hs Hi]; intros i a b Ha Hb.
  - by destruct i.
  - pose proof (path_to_last _ _ Hp) as Hlast.
    rewrite last_lookup in Hlast.
    assert (Hlen : 0 < length l) by (destruct Hp; [simpl; lia|rewrite length_app; simpl; lia]).
    destruct (decide (S i < length l)) as [Hlt|Hge].
    + rewrite lookup_app_l in Ha by lia. rewrite lookup_app_l in Hb by lia. eauto.
    + pose proof (lookup_lt_Some _ _ _ Hb) as Hbound.
      rewrite length_app in Hbound; simpl in Hbound.
      assert (S i = length l) as Hi' by lia.
      rewrite lookup_app_l in Ha by lia.
      rewrite lookup_app_r, Hi' in Hb by lia.
      replace (length l - length l) with 0 in Hb by lia. simpl in Hb.
      replace (pred (length l)) with i in Hlast by lia.
      by simplify_eq.
Qed.

End Backtrack.

(** [successors] is the list of the results of the transitions. *)
Lemma successors_fmap {state_t : Type}
    (transitions : state_t → list (state_t → state_t)) s :
  successors transitions s = (λ t, t s) <$> transitions s.
Proof.
  unfold successors.
  enough (∀ (l : list (state_t → state_t)) (acc : list state_t),
             foldl (λ a t, a ++ [t s]) acc l = acc ++ ((λ t, t s) <$> l))
    as Hgen by apply (Hgen _ []).
  induction l as [|t l IH]; intros acc; simpl.
  - by rewrite app_nil_r.
  - by rewrite IH, <- app_assoc.
Qed.

Lemma elem_of_successors {state_t : Type}
    (transitions : state_t → list (state_t → state_t)) s x :
  x ∈ successors transitions s ↔ ∃ t, t ∈ transitions s ∧ t s = x.
Proof.
  rewrite successors_fmap, list_elem_of_fmap. naive_solver.
Qed.

(** ** Runs of [check] *)

Section Runs.
Context {State_t : Type} `{Countable State_t} `{Inhabited State_t}.
Context {Cost_t : Type} `{Inhabited Cost_t}.
Variable cost_lt : Cost_t → Cost_t → bool.
Variable sp : state_space_t State_t Cost_t.
Variable goal_pred : State_t → bool.
Variable search_order : search_order_t.

Local Abbreviation body := (loop_body cost_lt sp goal_pred search_order).
Local Abbreviation loop := (check_loop cost_lt sp goal_pred search_order).
Local Abbreviation turns := (iterate cost_lt sp goal_pred search_order).

Lemma iterate_S n r :
  turns (S n) r =
    match body r with Continue r' => turns n r' | _ => None end.
Proof. reflexivity. Qed.

Lemma iterate_add n m r r' r'' :
  turns n r = Some r' → turns m r' = Some r'' → turns (n + m) r = Some r''.
Proof.
  revert r. induction n as [|n IH]; intros r; simpl.
  - by intros [= ->].
  - destruct (body r); try done. apply IH.
Qed.

Lemma iterate_run_inv n : ∀ r r' d,
  run_inv sp goal_pred d r → turns n r = Some r' →
  ∃ d', run_inv sp goal_pred d' r'.
Proof.
  induction n as [|n IH]; intros r r' d Hinv; simpl.
  - intros [= <-]. eauto.
  - destruct (body r) as [| |r1] eqn:Hb; try done.
    destruct (loop_body_Continue _ _ _ _ _ _ Hb) as (l1 & curr & l2 & new & Hturn & _).
    apply (IH r1 r' (depth_after d curr new)).
    by eapply run_inv_turn.
Qed.

Lemma iterate_bfs_inv n : ∀ r r' d,
  search_order = breadth_first →
  run_inv sp goal_pred d r → bfs_inv sp d r → turns n r = Some r' →
  ∃ d', run_inv sp goal_pred d' r' ∧ bfs_inv sp d' r'.
Proof.
  induction n as [|n IH]; intros r r' d Hord Hinv Hbfs; simpl.
  - intros [= <-]. eauto.
  - destruct (body r) as [| |r1] eqn:Hb; try done.
    destruct (loop_body_Continue _ _ _ _ _ _ Hb)
      as (l1 & curr & l2 & new & Hturn & _ & Hl1).
    rewrite (Hl1 Hord) in Hturn.
    apply (IH r1 r' (depth_after d curr new) Hord).
    + by eapply run_inv_turn.
    + by eapply bfs_inv_turn.
Qed.

Lemma iterate_passed_length n : ∀ r r',
  turns n r = Some r' → length (passed r') = length (passed r) + n.
Proof.
  induction n as [|n IH]; intros r r'; simpl.
  - intros [= <-]. lia.
  - destruct (body r) as [| |r1] eqn:Hb; try done.
    destruct (loop_body_Continue _ _ _ _ _ _ Hb) as (l1 & curr & l2 & new & Hturn & _).
    intros ->%IH. rewrite (turn_passed _ _ _ _ _ _ _ _ Hturn), length_app. simpl. lia.
Qed.

Lemma backtrack_fuel_mono fuel k : ∀ t x acc solution,
  backtrack sp fuel t x acc = Some solution →
  backtrack sp (fuel + k) t x acc = Some solution.
Proof.
  induction fuel as [|fuel IH]; intros t x acc sol; simpl; [done|].
  destruct (decide (x = initial_state sp)); [done|].
  destruct (trace_index t x). apply IH.
Qed.

(** More fuel does not change an outcome that was reached. *)
Lemma check_loop_fuel_mono fuel k : ∀ r res prev_cost,
  loop fuel r = (res, prev_cost) → res ≠ OutOfFuel →
  loop (fuel + k) r = (res, prev_cost).
Proof.
  induction fuel as [|fuel IH]; intros r res pc; simpl.
  - by intros [= <- <-].
  - destruct (body r) as [|curr t pc'|r1]; [done| |by apply IH].
    unfold get_solution_from_trace.
    destruct (backtrack sp fuel t curr [curr]) as [sol|] eqn:Hs.
    + by rewrite (backtrack_fuel_mono _ k _ _ _ _ Hs).
    + by intros [= <- <-].
Qed.

Lemma check_loop_iterate n k r r' :
  turns n r = Some r' → loop (n + k) r = loop k r'.
Proof.
  revert r. induction n as [|n IH]; intros r; simpl.
  - by intros [= ->].
  - destruct (body r); try done. apply IH.
Qed.

(** A solution comes from a turn that selects a goal state, after some
    number of turns that did not. *)
Lemma check_loop_Solution fuel : ∀ r solution prev_cost,
  loop fuel r = (Solution solution, prev_cost) →
  ∃ n r' curr,
    n < fuel ∧ turns n r = Some r' ∧
    body r' = GoalFound curr (trace r') prev_cost ∧
    get_solution_from_trace sp (fuel - S n) (trace r') curr = Some solution.
Proof.
  induction fuel as [|fuel IH]; intros r sol pc Hl; simpl in Hl; [done|].
  destruct (body r) as [|curr t pc'|r1] eqn:Hb; [done| |].
  - destruct (get_solution_from_trace sp fuel t curr) as [s|] eqn:Hs; [|done].
    injection Hl as -> ->.
    destruct (loop_body_GoalFound _ _ _ _ _ _ _ _ Hb) as (_ & _ & _ & _ & -> & _).
    exists 0, r, curr. split_and!; [lia|done|done|].
    by replace (S fuel - 1) with fuel by lia.
  - destruct (IH _ _ _ Hl) as (n & r' & curr & Hn & Hit & Hb' & Hs).
    exists (S n), r', curr. split_and!; [lia| |done|done].
    by rewrite iterate_S, Hb.
Qed.

Lemma check_loop_Exhausted n fuel r r' :
  turns n r = Some r' → waiting r' = [] → n < fuel →
  loop fuel r = (NoSolutionFound, running_cost r').
Proof.
  intros Hit Hw Hlt. replace fuel with (n + S (fuel - S n)) by lia.
  rewrite (check_loop_iterate _ _ _ _ Hit). simpl.
  assert (body r' = Exhausted (running_cost r')) as ->; [|done].
  by apply loop_body_Exhausted.
Qed.

End Runs.

(** ** The first turn *)

Section FirstTurn.
Context {State_t : Type} `{Countable State_t} `{Inhabited State_t}.
Context {Cost_t : Type} `{Inhabited Cost_t}.
Variable cost_lt : Cost_t → Cost_t → bool.
Variable sp : state_space_t State_t Cost_t.
Variable goal_pred : State_t → bool.
Variable search_order : search_order_t.

Lemma popstate_singleton x prev_cost :
  ∃ prev_cost',
    popstate cost_lt sp [x] search_order prev_cost = (x, [], prev_cost').
Proof.
  destruct (popstate_split cost_lt sp [x] search_order prev_cost)
    as (l1 & s & l2 & pc & Hsplit & Hpop & _); [done|].
  exists pc. rewrite Hpop.
  destruct l1 as [|a l1]; simpl in Hsplit.
  - by injection Hsplit as -> <-.
  - injection Hsplit as _ Hsplit. by destruct l1.
Qed.

Lemma check_fuel_mono fuel k res :
  (check cost_lt sp goal_pred search_order fuel).1 = res → res ≠ OutOfFuel →
  (check cost_lt sp goal_pred search_order (fuel + k)).1 = res.
Proof.
  unfold check.
  destruct (check_loop _ _ _ _ fuel _) as [res' pc] eqn:Hloop. simpl.
  intros -> Hres.
  by rewrite (check_loop_fuel_mono _ _ _ _ _ k _ _ _ Hloop Hres).
Qed.

(** The initial state is the one selected first; accepted by the goal
    predicate, it is the whole solution. *)
Lemma check_initial_goal fuel :
  goal_pred (initial_state sp) = true → 2 ≤ fuel →
  (check cost_lt sp goal_pred search_order fuel).1 = Solution [initial_state sp].
Proof.
  intros Hgoal Hfuel.
  destruct (popstate_singleton (initial_state sp) (previous_cost sp)) as (pc & Hpop).
  replace fuel with (2 + (fuel - 2)) by lia. apply check_fuel_mono; [|done].
  unfold check, check_loop, loop_body. simpl. rewrite Hpop, Hgoal. simpl.
  unfold get_solution_from_trace. simpl. by rewrite decide_True.
Qed.

(** Rejected by the goal predicate, it is passed and its successors are
    handled. *)
Lemma first_turn :
  goal_pred (initial_state sp) = false →
  ∃ r new,
    loop_body cost_lt sp goal_pred search_order (initial_run sp) = Continue r ∧
    turn sp goal_pred (initial_run sp) r [] (initial_state sp) [] new.
Proof.
  intros Hgoal.
  destruct (popstate_singleton (initial_state sp) (previous_cost sp)) as (pc & Hpop).
  destruct (loop_body cost_lt sp goal_pred search_order (initial_run sp))
    as [pc'|curr t pc'|r] eqn:Hb.
  - by apply loop_body_Exhausted in Hb as [? _].
  - destruct (loop_body_GoalFound _ _ _ _ _ _ _ _ Hb)
      as (l1 & l2 & _ & Hg & _ & Hpop' & _).
    simpl in Hpop'. rewrite Hpop in Hpop'. injection Hpop' as <- _ _. congruence.
  - destruct (loop_body_Continue _ _ _ _ _ _ Hb)
      as (l1 & curr & l2 & new & Hturn & Hpop' & _).
    simpl in Hpop'. rewrite Hpop in Hpop'. injection Hpop' as <- Hl _.
    symmetry in Hl. apply app_eq_nil in Hl as [-> ->].
    by exists r, new.
Qed.

(** Writing the calls down does not change what the [for] loop computes. *)
Lemma foldl_visit_calls_erase curr ps : ∀ l wt log,
  (foldl (visit_calls sp curr ps) (wt, log) l).1 = foldl (visit sp curr ps) wt l.
Proof.
  induction l as [|c l IH]; intros wt log; simpl; [done|].
  unfold visit_calls at 2. simpl. apply IH.
Qed.

(** [invariant] is called on every successor of the expanded state, and on
    nothing else. *)
Lemma expand_calls_successors curr ps wt :
  expand_calls sp curr ps wt = successors_function sp curr.
Proof.
  unfold expand_calls.
  enough (∀ l wt log, (foldl (visit_calls sp curr ps) (wt, log) l).2 = log ++ l)
    as Hgen by apply (Hgen _ _ []).
  induction l as [|c l IH]; intros wt' log; simpl.
  - by rewrite app_nil_r.
  - unfold visit_calls at 2. simpl. by rewrite IH, <- app_assoc.
Qed.

Lemma invariant_calls_successor fuel : ∀ r x,
  x ∈ invariant_calls cost_lt sp goal_pred search_order fuel r →
  ∃ p, x ∈ successors_function sp p.
Proof.
  induction fuel as [|fuel IH]; intros r x; simpl; [by intros ?%elem_of_nil|].
  intros [Hx|Hx]%elem_of_app.
  - unfold loop_body_calls in Hx.
    destruct (waiting r); [by apply elem_of_nil in Hx|].
    destruct (popstate _ _ _ _ _) as [[curr w'] pc].
    destruct (goal_pred curr); [by apply elem_of_nil in Hx|].
    rewrite expand_calls_successors in Hx. eauto.
  - destruct (loop_body _ _ _ _ r); try by apply elem_of_nil in Hx.
    by eapply IH.
Qed.

End FirstTurn.

(** ** Properties of [check] *)

Section Soundness.
Context {State_t : Type} `{Countable State_t} `{Inhabited State_t}.
Context {Cost_t : Type} `{Inhabited Cost_t}.
Variable cost_lt : Cost_t → Cost_t → bool.
Variable sp : state_space_t State_t Cost_t.
Variable goal_pred : State_t → bool.

(** A returned solution is a path to the selected goal state, of its depth
    plus one states, read off a run that satisfies the loop invariant. *)
Lemma check_Solution_path search_order fuel solution sp' :
  check cost_lt sp goal_pred search_order fuel = (Solution solution, sp') →
  ∃ d r cn,
    run_inv sp goal_pred d r ∧
    (search_order = breadth_first → bfs_inv sp d r) ∧
    cn ∈ waiting r ∧
    (search_order = breadth_first → head (waiting r) = Some cn) ∧
    goal_pred cn = true ∧
    path_to sp cn solution ∧ length solution = S (d cn).
Proof.
  unfold check.
  destruct (check_loop _ _ _ _ _ _) as [res pc] eqn:Hloop. intros [= -> <-].
  destruct (check_loop_Solution _ _ _ _ _ _ _ _ Hloop)
    as (n & r & cn & Hn & Hturns & Hbody & Hsol).
  destruct (loop_body_GoalFound _ _ _ _ _ _ _ _ Hbody)
    as (l1 & l2 & Hw & Hgoal & _ & _ & Hl1).
  assert (∃ d, run_inv sp goal_pred d r ∧
               (search_order = breadth_first → bfs_inv sp d r))
    as (d & Hinv & Hbfs).
  { destruct (decide (search_order = breadth_first)) as [Hord|Hord].
    - destruct (iterate_bfs_inv _ _ _ _ _ _ _ _ Hord
                  (run_inv_initial_run sp goal_pred) (bfs_inv_initial_run sp) Hturns)
        as (d & ? & ?).
      by exists d.
    - destruct (iterate_run_inv _ _ _ _ _ _ _ _
                  (run_inv_initial_run sp goal_pred) Hturns) as (d & ?).
      by exists d. }
  assert (Hcn : cn ∈ waiting r) by (rewrite Hw; set_solver).
  destruct (backtrack_spec sp goal_pred d r Hinv (d cn) cn eq_refl)
    as (chain & Hpath & Hlen & Hwalk); [set_solver|].
  unfold get_solution_from_trace in Hsol. rewrite Hwalk, app_nil_r in Hsol.
  destruct (decide _); [|done]. injection Hsol as <-.
  exists d, r, cn. split_and!; try done.
  intros Hord. by rewrite Hw, (Hl1 Hord).
Qed.

(** When a turn selects a goal state, the backward walk over the trace map
    ends, and [check] returns: [2 * n + 2] units of fuel are enough when
    [n] turns came before. *)
Lemma check_returns_when_goal_selected search_order n r cn prev_cost :
  iterate cost_lt sp goal_pred search_order n (initial_run sp) = Some r →
  loop_body cost_lt sp goal_pred search_order r = GoalFound cn (trace r) prev_cost →
  ∃ solution, ∀ fuel, 2 * n + 2 ≤ fuel →
    check cost_lt sp goal_pred search_order fuel =
      (Solution solution, set_previous_cost sp prev_cost).
Proof.
  intros Hturns Hbody.
  destruct (iterate_run_inv _ _ _ _ _ _ _ _
              (run_inv_initial_run sp goal_pred) Hturns) as (d & Hinv).
  destruct (loop_body_GoalFound _ _ _ _ _ _ _ _ Hbody)
    as (l1 & l2 & Hw & Hgoal & _ & _ & _).
  assert (Hcn : cn ∈ passed r ++ waiting r) by (rewrite Hw; set_solver).
  destruct (backtrack_spec sp goal_pred d r Hinv (d cn) cn eq_refl Hcn)
    as (chain & Hpath & Hlen & Hwalk).
  pose proof (inv_depth_bound _ _ _ _ Hinv cn Hcn) as Hbound.
  rewrite (iterate_passed_length _ _ _ _ _ _ _ Hturns) in Hbound.
  simpl in Hbound.
  exists chain. intros fuel Hfuel. unfold check.
  replace fuel with (n + S (fuel - S n)) by lia.
  rewrite (check_loop_iterate _ _ _ _ _ _ _ _ Hturns). simpl.
  rewrite Hbody. unfold get_solution_from_trace.
  rewrite Hwalk, app_nil_r, decide_True by lia. done.
Qed.

(** C1: for every search order, a solution [c0, ..., cn] returned by
    [check] starts at the initial state, ends in a state [cn] that the goal
    predicate accepts, every [c_(i+1)] is produced from [c_i] by one of the
    transitions the successor generator gives at [c_i], and every [c_i]
    with [i > 0] satisfies the invariant. *)
Theorem check_solution_is_valid_path
    (transitions : State_t → list (State_t → State_t))
    search_order fuel solution sp' :
  successors_function sp = successors transitions →
  check cost_lt sp goal_pred search_order fuel = (Solution solution, sp') →
  ∃ cn,
    solution !! 0 = Some (initial_state sp) ∧
    last solution = Some cn ∧ goal_pred cn = true ∧
    (∀ i ci ci', solution !! i = Some ci → solution !! S i = Some ci' →
       ∃ transition, transition ∈ transitions ci ∧ transition ci = ci') ∧
    (∀ i ci, 0 < i → solution !! i = Some ci → invariant sp ci = true).
Proof.
  intros Hsucc Hcheck.
  destruct (check_Solution_path _ _ _ _ Hcheck)
    as (d & r & cn & _ & _ & _ & _ & Hgoal & Hpath & _).
  exists cn. split_and!.
  - by eapply path_to_head.
  - by eapply path_to_last.
  - done.
  - intros i ci ci' Hi Hi'.
    destruct (path_to_adjacent _ _ _ Hpath i ci ci' Hi Hi') as [Hin _].
    rewrite Hsucc in Hin. by apply elem_of_successors.
  - intros [|i] ci Hpos Hi; [lia|].
    destruct (lookup_lt_is_Some_2 solution i) as [a Ha].
    { apply lookup_lt_Some in Hi. lia. }
    by destruct (path_to_adjacent _ _ _ Hpath i a ci Ha Hi).
Qed.

(** A valid path either reaches a state the breadth-first run already
    knows, at a depth no larger than the length of the path, or is at least
    as long as the depth of the head of the deque. *)
Lemma bfs_path_bound d r h :
  run_inv sp goal_pred d r → bfs_inv sp d r → head (waiting r) = Some h →
  ∀ y l, path_to sp y l →
    (y ∈ passed r ++ waiting r ∧ S (d y) ≤ length l) ∨ S (d h) ≤ length l.
Proof.
  intros Hinv Hbfs Hh.
  assert (Hmin : ∀ w, w ∈ waiting r → d h ≤ d w).
  { pose proof (bfs_sorted _ _ _ Hbfs) as Hs.
    destruct (waiting r) as [|h' t]; [done|]. injection Hh as ->.
    apply StronglySorted_inv in Hs as [_ Hall]. rewrite Forall_forall in Hall.
    intros w [->|Hw]%elem_of_cons; [done|by apply Hall]. }
  induction 1 as [|p x l Hp IH Hs Hi].
  - left. split; [apply Hinv|].
    rewrite (inv_initial_depth _ _ _ _ Hinv). simpl. lia.
  - rewrite length_app. simpl. destruct IH as [[Hknown Hlen]|Hlen]; [|right; lia].
    apply elem_of_app in Hknown as [Hpassed|Hwaiting].
    + left. split.
      * by eapply (inv_closed _ _ _ _ Hinv).
      * pose proof (bfs_closed_depth _ _ _ Hbfs p x Hpassed Hs Hi). lia.
    + right. specialize (Hmin p Hwaiting). lia.
Qed.

(** C2: under breadth-first order a returned solution is a valid path to a
    goal state with the least number of transitions (one less than the
    number of states) among all sequences that start at the initial state,
    end in a goal state, and whose steps are successors accepted by the
    invariant. *)
Theorem breadth_first_solution_is_shortest fuel solution sp' :
  check cost_lt sp goal_pred breadth_first fuel = (Solution solution, sp') →
  (∃ cn, goal_pred cn = true ∧ path_to sp cn solution) ∧
  ∀ c l, path_to sp c l → goal_pred c = true →
    length solution - 1 ≤ length l - 1.
Proof.
  intros Hcheck.
  destruct (check_Solution_path _ _ _ _ Hcheck)
    as (d & r & cn & Hinv & Hbfs & Hcn & Hhead & Hgoal & Hpath & Hlen).
  split; [by exists cn|].
  intros c l Hl Hc. rewrite Hlen.
  destruct (bfs_path_bound d r cn Hinv (Hbfs eq_refl) (Hhead eq_refl) c l Hl)
    as [[Hknown Hle]|Hle]; [|lia].
  apply elem_of_app in Hknown as [Hpassed|Hwaiting].
  - by rewrite (inv_not_goal _ _ _ _ Hinv c Hpassed) in Hc.
  - pose proof (bfs_sorted _ _ _ (Hbfs eq_refl)) as Hs.
    specialize (Hhead eq_refl).
    destruct (waiting r) as [|h t]; [done|]. injection Hhead as ->.
    apply StronglySorted_inv in Hs as [_ Hall]. rewrite Forall_forall in Hall.
    apply elem_of_cons in Hwaiting as [->|Hw]; [lia|].
    specialize (Hall c Hw). simpl in Hall. lia.
Qed.

End Soundness.

Section CostGuided.
Context {State_t : Type} `{Countable State_t} `{Inhabited State_t}.
Context {Cost_t : Type} `{Inhabited Cost_t}.
Variable cost_lt : Cost_t → Cost_t → bool.
Hypothesis lt_irrefl : ∀ a, cost_lt a a = false.
Hypothesis lt_trans : ∀ a b c,
  cost_lt a b = true → cost_lt b c = true → cost_lt a c = true.
Hypothesis lt_cotrans : ∀ a b c,
  cost_lt a c = true → cost_lt a b = true ∨ cost_lt b c = true.
Variable sp : state_space_t State_t Cost_t.
Variable goal_pred : State_t → bool.

(** C3: under cost-guided order a turn of the loop computes
    [cost_function s previous_cost] for every state [s] of the deque with
    the one running previous cost, selects the state whose cost is minimal
    and, among those, the first in the deque, removes it, and carries its
    cost as the running previous cost into what follows (the goal test and
    the next turn).  [operator<] of the costs is a strict weak ordering. *)
Theorem cost_guided_selects_first_minimum (r : run_t State_t Cost_t) :
  waiting r ≠ [] →
  ∃ index state,
    let cost := λ s, cost_function sp s (running_cost r) in
    waiting r !! index = Some state ∧
    (∀ j s, waiting r !! j = Some s → cost_lt (cost s) (cost state) = false) ∧
    (∀ j s, j < index → waiting r !! j = Some s →
            cost_lt (cost state) (cost s) = true) ∧
    popstate cost_lt sp (waiting r) cost_guided (running_cost r) =
      (state, delete index (waiting r), cost state) ∧
    match loop_body cost_lt sp goal_pred cost_guided r with
    | Exhausted _ => False
    | GoalFound curr _ prev_cost => curr = state ∧ prev_cost = cost state
    | Continue r' =>
        last (passed r') = Some state ∧ running_cost r' = cost state
    end.
Proof.
  intros Hne.
  destruct (popstate_cost_guided_index cost_lt sp (waiting r) (running_cost r) Hne)
    as (index & state & Hindex & Hstate & Hpop).
  set (costs := (λ s, cost_function sp s (running_cost r)) <$> waiting r) in *.
  destruct (min_element_spec cost_lt lt_irrefl lt_trans lt_cotrans costs)
    as (v & Hv & Hmin & Hfirst).
  { subst costs. by destruct (waiting r). }
  rewrite <- Hindex in Hv, Hfirst.
  assert (v = cost_function sp state (running_cost r)) as ->.
  { subst costs. rewrite list_lookup_fmap, Hstate in Hv. by injection Hv. }
  exists index, state. simpl. split_and!; try done.
  - intros j s Hj. apply (Hmin j). subst costs. by rewrite list_lookup_fmap, Hj.
  - intros j s Hlt Hj. apply (Hfirst j); [done|].
    subst costs. by rewrite list_lookup_fmap, Hj.
  - unfold loop_body. destruct (waiting r) as [|h t] eqn:Hw; [done|].
    rewrite Hpop. destruct (goal_pred state); [done|].
    destruct (expand _ _ _ _). simpl. by rewrite last_snoc.
Qed.

End CostGuided.

Section Admission.
Context {State_t : Type} `{Countable State_t} `{Inhabited State_t}.
Context {Cost_t : Type} `{Inhabited Cost_t}.
Variable cost_lt : Cost_t → Cost_t → bool.
Variable sp : state_space_t State_t Cost_t.
Variable goal_pred : State_t → bool.
Variable search_order : search_order_t.

(** The body of the [for] loop on one candidate: the deque grows by [c]
    exactly when [c] is accepted, the predecessor of [c] is then recorded,
    and a rejected candidate leaves the deque and the trace map alone. *)
Lemma visit_cases curr_state (ps w : list State_t)
    (t : gmap State_t State_t) c :
  let accepted := invariant sp c = true ∧ c ∉ w ∧ c ∉ ps in
  ((visit sp curr_state ps (w, t) c).1 = w ++ [c] ↔ accepted) ∧
  (accepted →
     visit sp curr_state ps (w, t) c = (w ++ [c], <[c := curr_state]> t) ∧
     (visit sp curr_state ps (w, t) c).2 !! c = Some curr_state) ∧
  (¬ accepted → visit sp curr_state ps (w, t) c = (w, t)).
Proof.
  simpl. split_and!.
  - split.
    + intros Heq.
      destruct (decide (invariant sp c = true ∧ c ∉ w ∧ c ∉ ps)) as [|Hno]; [done|].
      rewrite (visit_reject _ _ _ _ _ _ Hno) in Heq. simpl in Heq.
      apply (f_equal length) in Heq. rewrite length_app in Heq. simpl in Heq. lia.
    + intros (Hi & Hw & Hp). by rewrite (visit_accept _ _ _ _ _ _ Hi Hw Hp).
  - intros (Hi & Hw & Hp). rewrite (visit_accept _ _ _ _ _ _ Hi Hw Hp).
    split; [done|]. simpl. apply lookup_insert_eq.
  - apply visit_reject.
Qed.

(** C5: in a turn of the loop of [check] that expands [curr_state], the
    successors of [curr_state] are handled one after the other, starting
    from the deque that [popstate] left and the trace map of the turn.
    The [k]-th candidate [c] is appended to the deque exactly when the
    invariant accepts it and it is neither in the deque as it then stands
    nor among the passed states ([curr_state] included); then
    [trace[c] = curr_state] is recorded; a rejected candidate leaves the
    deque and the trace map as they are.  The deque and the trace map
    after the last candidate are the ones of the next turn, whose passed
    states are those of this turn and [curr_state], whatever the
    candidates.  So a state is in the next deque exactly when [popstate]
    left it there or it is an accepted successor of [curr_state] that is
    new. *)
Theorem candidate_admission (r r' : run_t State_t Cost_t) :
  loop_body cost_lt sp goal_pred search_order r = Continue r' →
  ∃ curr_state waiting',
    popstate cost_lt sp (waiting r) search_order (running_cost r) =
      (curr_state, waiting', running_cost r') ∧
    passed r' = passed r ++ [curr_state] ∧
    let succs := successors_function sp curr_state in
    let after k :=
      foldl (visit sp curr_state (passed r')) (waiting', trace r) (take k succs) in
    after 0 = (waiting', trace r) ∧
    after (length succs) = (waiting r', trace r') ∧
    (∀ k c, succs !! k = Some c →
       let accepted :=
         invariant sp c = true ∧ c ∉ (after k).1 ∧ c ∉ passed r' in
       ((after (S k)).1 = (after k).1 ++ [c] ↔ accepted) ∧
       (accepted →
          after (S k) = ((after k).1 ++ [c], <[c := curr_state]> (after k).2) ∧
          (after (S k)).2 !! c = Some curr_state) ∧
       (¬ accepted → after (S k) = after k)) ∧
    (∀ c, c ∈ waiting r' ↔
          c ∈ waiting' ∨
          (c ∈ succs ∧ invariant sp c = true ∧ c ∉ waiting' ∧ c ∉ passed r')) ∧
    (∀ c, c ∈ waiting r' → c ∉ waiting' → trace r' !! c = Some curr_state) ∧
    (∀ c, c ∈ waiting' ∨ c ∉ waiting r' → trace r' !! c = trace r !! c).
Proof.
  intros Hb.
  destruct (loop_body_Continue _ _ _ _ _ _ Hb)
    as (l1 & curr & l2 & new & Hturn & Hpop & _).
  exists curr, (l1 ++ l2). split; [done|].
  pose proof (turn_passed _ _ _ _ _ _ _ _ Hturn) as Hpassed.
  split; [done|]. simpl.
  assert (Hend : foldl (visit sp curr (passed r')) (l1 ++ l2, trace r)
                   (successors_function sp curr) = (waiting r', trace r')).
  { rewrite Hpassed. revert Hb Hpop. unfold loop_body.
    destruct (waiting r) as [|h t]; [done|].
    intros Hb Hpop. revert Hb.
    rewrite Hpop, (turn_not_goal _ _ _ _ _ _ _ _ Hturn).
    unfold expand.
    destruct (foldl _ _ _) as [w'' t''].
    by intros [= <-]. }
  split_and!.
  - done.
  - by rewrite firstn_all.
  - intros k c Hk.
    rewrite (take_S_r _ _ _ Hk), foldl_app. simpl.
    destruct (foldl _ _ (take k _)) as [w t]. apply visit_cases.
  - intros c. rewrite (turn_waiting' _ _ _ _ _ _ _ _ Hturn), elem_of_app,
      (turn_new _ _ _ _ _ _ _ _ Hturn), Hpassed. done.
  - intros c Hc Hnot. apply (turn_trace_new _ _ _ _ _ _ _ _ Hturn).
    rewrite (turn_waiting' _ _ _ _ _ _ _ _ Hturn), elem_of_app in Hc.
    by destruct Hc.
  - intros c Hc. apply (turn_trace_old _ _ _ _ _ _ _ _ Hturn).
    intros Hnew. destruct Hc as [Hc|Hc].
    + by apply (turn_new _ _ _ _ _ _ _ _ Hturn) in Hnew as (_ & _ & ? & _).
    + apply Hc. rewrite (turn_waiting' _ _ _ _ _ _ _ _ Hturn). set_solver.
Qed.

Local Abbreviation turns := (iterate cost_lt sp goal_pred search_order).

Lemma iterate_passed_prefix n : ∀ r r',
  turns n r = Some r' → ∃ l, passed r' = passed r ++ l.
Proof.
  induction n as [|n IH]; intros r r'; simpl.
  - intros [= <-]. exists []. by rewrite app_nil_r.
  - destruct (loop_body _ _ _ _ r) as [| |r1] eqn:Hb; try done.
    destruct (loop_body_Continue _ _ _ _ _ _ Hb) as (l1 & curr & l2 & new & Hturn & _).
    intros (l & ->)%IH. rewrite (turn_passed _ _ _ _ _ _ _ _ Hturn).
    exists ([curr] ++ l). by rewrite app_assoc.
Qed.

(** C6: at the head of every turn of the loop the passed states have no
    duplicates and none of them is in the deque; this also holds inside
    the turn, after the selected state was passed and any number of its
    successors were handled; and a state that was passed stays passed and
    is not in the deque at any later turn. *)
Theorem passed_and_waiting_stay_disjoint n r :
  turns n (initial_run sp) = Some r →
  NoDup (passed r) ∧ NoDup (waiting r) ∧
  (∀ x, x ∈ passed r → x ∉ waiting r) ∧
  (∀ curr waiting' prev_cost k,
     waiting r ≠ [] →
     popstate cost_lt sp (waiting r) search_order (running_cost r) =
       (curr, waiting', prev_cost) →
     let passed' := passed r ++ [curr] in
     let wt := foldl (visit sp curr passed') (waiting', trace r)
                 (take k (successors_function sp curr)) in
     NoDup passed' ∧ NoDup wt.1 ∧ ∀ x, x ∈ passed' → x ∉ wt.1) ∧
  (∀ m r' x, turns m r = Some r' → x ∈ passed r →
     x ∈ passed r' ∧ x ∉ waiting r').
Proof.
  intros Hturns.
  destruct (iterate_run_inv _ _ _ _ _ _ _ _
              (run_inv_initial_run sp goal_pred) Hturns) as (d & Hinv).
  pose proof (inv_nodup _ _ _ _ Hinv) as Hnd.
  apply NoDup_app in Hnd as (Hndp & Hdisj & Hndw).
  split_and!; try done.
  - intros curr waiting' pc k Hne Hpop.
    destruct (popstate_split cost_lt sp (waiting r) search_order (running_cost r) Hne)
      as (l1 & s & l2 & pc' & Hw & Hpop' & _).
    rewrite Hpop' in Hpop. injection Hpop as <- <- <-.
    destruct (foldl_visit sp s (passed r ++ [s])
                (take k (successors_function sp s)) (l1 ++ l2) (trace r))
      as (new & Heq & Hndn & Hin & _).
    simpl. rewrite Heq. simpl.
    rewrite Hw in Hndw, Hdisj.
    assert (Hnd' : NoDup ((passed r ++ [s]) ++ (l1 ++ l2) ++ new)).
    { assert (Hperm : (passed r ++ [s]) ++ (l1 ++ l2) ++ new
                        ≡ₚ (passed r ++ l1 ++ s :: l2) ++ new).
      { rewrite <- !app_assoc. apply Permutation_app_head. simpl.
        apply Permutation_middle. }
      rewrite Hperm. apply NoDup_app. split_and!; [|intros x Hx Hn|done].
      - by apply NoDup_app.
      - apply Hin in Hn as (_ & _ & Hnw & Hnp). set_solver. }
    apply NoDup_app in Hnd' as (? & ? & ?). done.
  - intros m r' x Hm Hx.
    destruct (iterate_passed_prefix _ _ _ Hm) as (l & Hl).
    assert (Hx' : x ∈ passed r') by (rewrite Hl; set_solver).
    split; [done|].
    pose proof (iterate_add _ _ _ _ _ _ _ _ _ Hturns Hm) as Hall.
    destruct (iterate_run_inv _ _ _ _ _ _ _ _
                (run_inv_initial_run sp goal_pred) Hall) as (d' & Hinv').
    pose proof (inv_nodup _ _ _ _ Hinv') as Hnd'.
    apply NoDup_app in Hnd' as (_ & Hdisj' & _). by apply Hdisj'.
Qed.

(** C4: when the deque is empty at the head of a turn, no selected state
    having been accepted by the goal predicate before, [check] ends with
    [NoSolutionFound] for every fuel above the number of turns taken.  With
    an invariant that rejects every state but the initial one, [check] ends
    within two turns: the deque is empty at the second turn and the outcome
    is [NoSolutionFound], unless the goal predicate accepted the initial
    state at the first turn. *)
Theorem check_fails_when_frontier_exhausted :
  (∀ n r fuel,
     turns n (initial_run sp) = Some r → waiting r = [] → n < fuel →
     check cost_lt sp goal_pred search_order fuel =
       (NoSolutionFound, set_previous_cost sp (running_cost r))) ∧
  ((∀ s, s ≠ initial_state sp → invariant sp s = false) →
   ∀ fuel, 2 ≤ fuel →
     (check cost_lt sp goal_pred search_order fuel).1 =
       if goal_pred (initial_state sp) then Solution [initial_state sp]
       else NoSolutionFound).
Proof.
  split.
  - intros n r fuel Hturns Hw Hlt. unfold check.
    by rewrite (check_loop_Exhausted _ _ _ _ _ _ _ _ Hturns Hw Hlt).
  - intros Hrej fuel Hfuel.
    destruct (goal_pred (initial_state sp)) eqn:Hgoal; [by apply check_initial_goal|].
    destruct (first_turn cost_lt sp goal_pred search_order Hgoal)
      as (r1 & new & Hb & Hturn).
    assert (new = []) as ->.
    { destruct new as [|x new]; [done|].
      destruct (proj1 (turn_new _ _ _ _ _ _ _ _ Hturn x)) as (_ & Hi & _ & Hp);
        [set_solver|].
      rewrite Hrej in Hi; [done|]. set_solver. }
    assert (Hturns : turns 1 (initial_run sp) = Some r1) by (simpl; by rewrite Hb).
    unfold check.
    rewrite (check_loop_Exhausted _ _ _ _ _ _ _ _ Hturns); [done| |lia].
    by rewrite (turn_waiting' _ _ _ _ _ _ _ _ Hturn).
Qed.

End Admission.

(** ** Runs that select the same states *)

Section SameSelection.
Context {State_t : Type} `{Countable State_t} `{Inhabited State_t}.
Context {Cost_t : Type} `{Inhabited Cost_t}.
Variable cost_lt : Cost_t → Cost_t → bool.
Variable sp : state_space_t State_t Cost_t.
Variable goal_pred : State_t → bool.
Variables order1 order2 : search_order_t.

(** The two orders take the same state out of every deque, whatever the
    running costs. *)
Hypothesis same_selection : ∀ w c1 c2,
  w ≠ [] →
  (popstate cost_lt sp w order1 c1).1 = (popstate cost_lt sp w order2 c2).1.

Lemma loop_body_same_selection r1 r2 :
  same_run r1 r2 →
  same_step (loop_body cost_lt sp goal_pred order1 r1)
            (loop_body cost_lt sp goal_pred order2 r2).
Proof.
  destruct r1 as [w1 p1 t1 c1], r2 as [w2 p2 t2 c2].
  intros (Hw & Hp & Ht). simpl in *. subst w2 p2 t2.
  unfold loop_body. simpl. destruct w1 as [|h w]; [done|].
  assert (Hsel := same_selection (h :: w) c1 c2 ltac:(done)).
  destruct (popstate cost_lt sp (h :: w) order1 c1) as [[s1 w1'] c1'].
  destruct (popstate cost_lt sp (h :: w) order2 c2) as [[s2 w2'] c2'].
  simpl in Hsel. injection Hsel as -> ->.
  destruct (goal_pred s2); [done|].
  by destruct (expand _ _ _ _).
Qed.

Lemma check_loop_same_selection fuel : ∀ r1 r2,
  same_run r1 r2 →
  (check_loop cost_lt sp goal_pred order1 fuel r1).1 =
  (check_loop cost_lt sp goal_pred order2 fuel r2).1.
Proof.
  induction fuel as [|fuel IH]; intros r1 r2 Hsame; simpl; [done|].
  pose proof (loop_body_same_selection r1 r2 Hsame) as Hstep.
  destruct (loop_body cost_lt sp goal_pred order1 r1),
           (loop_body cost_lt sp goal_pred order2 r2); try done.
  - destruct Hstep as [-> ->]. by destruct (get_solution_from_trace _ _ _ _).
  - by apply IH.
Qed.

Lemma iterate_same_selection n : ∀ r1 r2,
  same_run r1 r2 →
  match iterate cost_lt sp goal_pred order1 n r1,
        iterate cost_lt sp goal_pred order2 n r2 with
  | Some r1', Some r2' => same_run r1' r2'
  | None, None => True
  | _, _ => False
  end.
Proof.
  induction n as [|n IH]; intros r1 r2 Hsame; simpl; [done|].
  pose proof (loop_body_same_selection r1 r2 Hsame) as Hstep.
  destruct (loop_body cost_lt sp goal_pred order1 r1),
           (loop_body cost_lt sp goal_pred order2 r2); try done.
  by apply IH.
Qed.

End SameSelection.

Section Rerunning.
Context {State_t : Type} `{Countable State_t} `{Inhabited State_t}.
Context {Cost_t : Type} `{Inhabited Cost_t}.
Variable cost_lt : Cost_t → Cost_t → bool.
Variable sp : state_space_t State_t Cost_t.
Variable goal_pred : State_t → bool.

(** Under depth-first and breadth-first order [popstate] does not read the
    member [previous_cost]: a second call of [check] on the engine as the
    first call left it has the outcome of the first. *)
Lemma check_twice_same_outcome search_order fuel :
  search_order ≠ cost_guided →
  (check cost_lt (check cost_lt sp goal_pred search_order fuel).2
     goal_pred search_order fuel).1 =
  (check cost_lt sp goal_pred search_order fuel).1.
Proof.
  intros Hord. unfold check at 2 3.
  destruct (check_loop cost_lt sp goal_pred search_order fuel (initial_run sp))
    as [res pc] eqn:Hloop.
  simpl. unfold check.
  destruct (check_loop cost_lt (set_previous_cost sp pc) goal_pred search_order fuel
              (initial_run (set_previous_cost sp pc))) as [res' pc'] eqn:Hloop'.
  simpl.
  change (check_loop cost_lt (set_previous_cost sp pc) goal_pred search_order fuel
            (initial_run (set_previous_cost sp pc)))
    with (check_loop cost_lt sp goal_pred search_order fuel
            (Run [initial_state sp] [] ∅ pc)) in Hloop'.
  change res' with (res', pc').1. change res with (res, pc).1.
  rewrite <- Hloop, <- Hloop'.
  apply check_loop_same_selection; [|done].
  intros w c1 c2 _. by destruct search_order.
Qed.

End Rerunning.

(** C7, as far as the code goes: the engine of module [Rerun], searched
    twice in cost-guided order for the same goal, returns the solution
    1, 2, 4 the first time and 1, 3, 4 the second time, because the second
    call starts from the [previous_cost] that the first call left. *)
Theorem cost_guided_second_call_differs :
  let first := check Z.ltb Rerun.engine Rerun.goal cost_guided 10 in
  let second := check Z.ltb first.2 Rerun.goal cost_guided 10 in
  first.1 = Solution [1%Z; 2%Z; 4%Z] ∧
  previous_cost first.2 = (-4)%Z ∧
  second.1 = Solution [1%Z; 3%Z; 4%Z].
Proof. vm_compute. done. Qed.

(** ** The initial state and the invariant *)

Section InitialState.
Context {State_t : Type} `{Countable State_t} `{Inhabited State_t}.
Context {Cost_t : Type} `{Inhabited Cost_t}.
Variable cost_lt : Cost_t → Cost_t → bool.
Variable sp : state_space_t State_t Cost_t.
Variable goal_pred : State_t → bool.
Variable search_order : search_order_t.

Section OtherInvariant.
Variable sp' : state_space_t State_t Cost_t.
Hypothesis Hsame : same_but_invariant_at_initial sp sp'.

Lemma visit_other_invariant curr ps wt c :
  initial_state sp ∈ ps →
  visit sp' curr ps wt c = visit sp curr ps wt c.
Proof.
  destruct Hsame as (_ & _ & _ & _ & _ & Hinv).
  intros Hin. unfold visit. destruct (decide (c = initial_state sp)) as [->|Hne].
  - rewrite (bool_decide_eq_false_2 (initial_state sp ∉ ps)) by auto.
    by rewrite !andb_false_r.
  - by rewrite Hinv.
Qed.

Lemma expand_other_invariant curr ps wt :
  initial_state sp ∈ ps →
  expand sp' curr ps wt = expand sp curr ps wt.
Proof.
  intros Hin. unfold expand.
  destruct Hsame as (_ & -> & _).
  revert wt. induction (successors_function sp curr) as [|c l IH]; intros wt; simpl.
  - done.
  - by rewrite visit_other_invariant, IH.
Qed.

Lemma popstate_other_invariant w prev_cost :
  popstate cost_lt sp' w search_order prev_cost =
  popstate cost_lt sp w search_order prev_cost.
Proof.
  destruct Hsame as (_ & _ & Hcost & _).
  unfold popstate. by rewrite Hcost.
Qed.

Lemma backtrack_other_invariant fuel : ∀ t x acc,
  backtrack sp' fuel t x acc = backtrack sp fuel t x acc.
Proof.
  destruct Hsame as (Hinit & _).
  induction fuel as [|fuel IH]; intros t x acc; simpl; [done|].
  rewrite Hinit. destruct (decide _); [done|].
  destruct (trace_index t x). apply IH.
Qed.

Lemma loop_body_other_invariant r :
  initial_state sp ∈ passed r ∨ waiting r = [initial_state sp] →
  loop_body cost_lt sp' goal_pred search_order r =
  loop_body cost_lt sp goal_pred search_order r.
Proof.
  intros Hr. unfold loop_body. destruct (waiting r) as [|h t] eqn:Hw; [done|].
  rewrite popstate_other_invariant.
  destruct (popstate cost_lt sp (h :: t) search_order (running_cost r))
    as [[curr w'] pc] eqn:Hpop.
  destruct (goal_pred curr); [done|].
  rewrite expand_other_invariant; [done|].
  destruct Hr as [Hin|[= -> ->]]; [set_solver|].
  destruct (popstate_singleton cost_lt sp search_order (initial_state sp)
              (running_cost r)) as (pc' & Hpop').
  rewrite Hpop' in Hpop. injection Hpop as <- _ _. set_solver.
Qed.

Lemma check_loop_other_invariant fuel : ∀ r,
  initial_state sp ∈ passed r ∨ waiting r = [initial_state sp] →
  check_loop cost_lt sp' goal_pred search_order fuel r =
  check_loop cost_lt sp goal_pred search_order fuel r.
Proof.
  induction fuel as [|fuel IH]; intros r Hr; simpl; [done|].
  rewrite (loop_body_other_invariant r Hr).
  destruct (loop_body cost_lt sp goal_pred search_order r) as [|curr t pc|r1] eqn:Hb.
  - done.
  - unfold get_solution_from_trace. by rewrite backtrack_other_invariant.
  - apply IH. left.
    destruct (loop_body_Continue _ _ _ _ _ _ Hb) as (l1 & curr & l2 & new & Hturn & _).
    rewrite (turn_passed _ _ _ _ _ _ _ _ Hturn).
    destruct Hr as [Hin|Hw]; [set_solver|].
    pose proof (turn_waiting _ _ _ _ _ _ _ _ Hturn) as Hw'. rewrite Hw in Hw'.
    assert (initial_state sp ∈ l1 ++ curr :: l2) as Hin by (rewrite <- Hw'; set_solver).
    destruct l1 as [|a l1]; simpl in Hw'.
    + injection Hw' as -> _. set_solver.
    + injection Hw' as _ Hw'. by destruct l1.
Qed.
End OtherInvariant.

(** The calls of [invariant] in one turn: one on each successor of the
    state that the turn expands, none in a turn that leaves the loop. *)
Lemma loop_body_calls_Continue r r' curr :
  loop_body cost_lt sp goal_pred search_order r = Continue r' →
  passed r' = passed r ++ [curr] →
  loop_body_calls cost_lt sp goal_pred search_order r =
    successors_function sp curr.
Proof.
  unfold loop_body, loop_body_calls.
  destruct (waiting r) as [|h t]; [done|].
  destruct (popstate _ _ _ _ _) as [[c w'] pc].
  destruct (goal_pred c); [done|].
  destruct (expand _ _ _ _) as [w'' t''].
  intros [= <-]. simpl. intros Heq%app_inv_head. injection Heq as ->.
  apply expand_calls_successors.
Qed.

Lemma loop_body_calls_stop r :
  (∀ r', loop_body cost_lt sp goal_pred search_order r ≠ Continue r') →
  loop_body_calls cost_lt sp goal_pred search_order r = [].
Proof.
  unfold loop_body, loop_body_calls.
  destruct (waiting r) as [|h t]; [done|].
  destruct (popstate _ _ _ _ _) as [[c w'] pc].
  destruct (goal_pred c); [done|].
  destruct (expand _ _ _ _) as [w'' t''].
  intros Hno. by destruct (Hno _ eq_refl).
Qed.

(** The calls of [invariant] in the first [fuel] turns are the successors
    of the states expanded in these turns. *)
Lemma invariant_calls_spec fuel : ∀ r0 x,
  x ∈ invariant_calls cost_lt sp goal_pred search_order fuel r0 ↔
  ∃ n r r' curr,
    n < fuel ∧
    iterate cost_lt sp goal_pred search_order n r0 = Some r ∧
    loop_body cost_lt sp goal_pred search_order r = Continue r' ∧
    passed r' = passed r ++ [curr] ∧
    x ∈ successors_function sp curr.
Proof.
  induction fuel as [|fuel IH]; intros r0 x; simpl.
  - split; [by intros ?%elem_of_nil|]. intros (n & _ & _ & _ & ? & _). lia.
  - rewrite elem_of_app. split.
    + intros [Hx|Hx].
      * destruct (loop_body cost_lt sp goal_pred search_order r0)
          as [| |r1] eqn:Hb.
        -- rewrite loop_body_calls_stop in Hx; [by apply elem_of_nil in Hx|].
           intros r'. by rewrite Hb.
        -- rewrite loop_body_calls_stop in Hx; [by apply elem_of_nil in Hx|].
           intros r'. by rewrite Hb.
        -- destruct (loop_body_Continue _ _ _ _ _ _ Hb)
             as (l1 & curr & l2 & new & Hturn & _).
           pose proof (turn_passed _ _ _ _ _ _ _ _ Hturn) as Hp.
           rewrite (loop_body_calls_Continue r0 r1 curr Hb Hp) in Hx.
           exists 0, r0, r1, curr. split_and!; [lia|done..].
      * destruct (loop_body cost_lt sp goal_pred search_order r0)
          as [| |r1] eqn:Hb; try by apply elem_of_nil in Hx.
        apply IH in Hx as (n & r & r' & curr & ? & Hrun & ? & ? & ?).
        exists (S n), r, r', curr. split_and!; [lia| |done..].
        simpl. by rewrite Hb.
    + intros (n & r & r' & curr & Hn & Hrun & Hb & Hp & Hx).
      destruct n as [|n]; simpl in Hrun.
      * injection Hrun as <-. left.
        by rewrite (loop_body_calls_Continue _ _ _ Hb Hp).
      * destruct (loop_body cost_lt sp goal_pred search_order r0)
          as [| |r1] eqn:Hb0; try done.
        right. apply IH. exists n, r, r', curr. split_and!; [lia|done..].
Qed.

(** From the first turn on the initial state is among the passed states,
    and the trace map never gets an entry for it. *)
Lemma turn_initial_passed r r' :
  initial_state sp ∈ passed r ∨ waiting r = [initial_state sp] →
  trace r !! initial_state sp = None →
  loop_body cost_lt sp goal_pred search_order r = Continue r' →
  initial_state sp ∈ passed r' ∧ trace r' !! initial_state sp = None.
Proof.
  intros Hr Ht Hb.
  destruct (loop_body_Continue _ _ _ _ _ _ Hb) as (l1 & curr & l2 & new & Hturn & _).
  assert (Hin : initial_state sp ∈ passed r ++ [curr]).
  { destruct Hr as [Hin|Hw]; [set_solver|].
    pose proof (turn_waiting _ _ _ _ _ _ _ _ Hturn) as Hw'. rewrite Hw in Hw'.
    destruct l1 as [|a l1]; simpl in Hw'.
    - injection Hw' as -> _. set_solver.
    - injection Hw' as _ Hw'. by destruct l1. }
  split.
  - by rewrite (turn_passed _ _ _ _ _ _ _ _ Hturn).
  - rewrite (turn_trace_old _ _ _ _ _ _ _ _ Hturn); [done|].
    by intros (_ & _ & _ & Hno)%(turn_new _ _ _ _ _ _ _ _ Hturn).
Qed.

Lemma iterate_initial_passed n : ∀ r0 r,
  initial_state sp ∈ passed r0 ∨ waiting r0 = [initial_state sp] →
  trace r0 !! initial_state sp = None →
  iterate cost_lt sp goal_pred search_order n r0 = Some r →
  (initial_state sp ∈ passed r ∨ waiting r = [initial_state sp]) ∧
  trace r !! initial_state sp = None.
Proof.
  induction n as [|n IH]; intros r0 r Hr Ht; simpl.
  - by intros [= <-].
  - destruct (loop_body cost_lt sp goal_pred search_order r0) as [| |r1] eqn:Hb;
      try done.
    destruct (turn_initial_passed r0 r1 Hr Ht Hb) as [Hin Ht1].
    apply IH; [by left|done].
Qed.

(** When a turn expands a state that has the initial state among its
    successors, [invariant] is called on the initial state, and the
    candidate is dropped. *)
Lemma rediscovered_initial_state n r r' curr :
  iterate cost_lt sp goal_pred search_order n (initial_run sp) = Some r →
  loop_body cost_lt sp goal_pred search_order r = Continue r' →
  passed r' = passed r ++ [curr] →
  initial_state sp ∈ successors_function sp curr →
  initial_state sp ∈ loop_body_calls cost_lt sp goal_pred search_order r ∧
  (∀ fuel, n < fuel →
     initial_state sp ∈
       invariant_calls cost_lt sp goal_pred search_order fuel (initial_run sp)) ∧
  initial_state sp ∈ passed r' ∧
  initial_state sp ∉ waiting r' ∧
  trace r' !! initial_state sp = None.
Proof.
  intros Hrun Hb Hp Hsucc.
  destruct (iterate_initial_passed n (initial_run sp) r) as [Hr Ht];
    [by right|apply lookup_empty|done|].
  destruct (turn_initial_passed r r' Hr Ht Hb) as [Hin Ht'].
  split_and!; try done.
  - by rewrite (loop_body_calls_Continue r r' curr Hb Hp).
  - intros fuel Hfuel. apply invariant_calls_spec.
    by exists n, r, r', curr.
  - destruct (iterate_run_inv cost_lt sp goal_pred search_order (n + 1)
                (initial_run sp) r' (λ _, 0)) as (d & Hinv).
    + apply run_inv_initial_run.
    + apply (iterate_add _ _ _ _ _ _ _ _ _ Hrun). simpl. by rewrite Hb.
    + pose proof (inv_nodup _ _ _ _ Hinv) as Hnd.
      apply NoDup_app in Hnd as (_ & Hdis & _). by apply Hdis.
Qed.

(** C9, as the code has it.  Whatever the invariant, the first turn of the
    loop selects the initial state, which was put in the deque without a
    call of the invariant; when the goal predicate accepts it, [check]
    returns the one-element solution; otherwise the initial state is passed
    and its successors are handled; what the invariant says of the initial
    state has no influence on the outcome of [check]; the calls of the
    invariant in the first turn are the ones on the successors of the
    initial state, and there is none when the goal predicate accepts it.
    The invariant is still called on the initial state in every turn that
    expands a state with the initial state among its successors, and the
    candidate is then dropped: it is among the passed states, is not put
    in the deque and gets no entry in the trace map.  These are the only
    calls of the invariant on the initial state. *)
Theorem initial_state_is_not_filtered :
  (∃ prev_cost,
     popstate cost_lt sp (waiting (initial_run sp)) search_order
       (running_cost (initial_run sp)) = (initial_state sp, [], prev_cost)) ∧
  (goal_pred (initial_state sp) = true →
   ∀ fuel, 2 ≤ fuel →
     (check cost_lt sp goal_pred search_order fuel).1 =
       Solution [initial_state sp]) ∧
  (goal_pred (initial_state sp) = false →
   ∃ r, loop_body cost_lt sp goal_pred search_order (initial_run sp) = Continue r ∧
        passed r = [initial_state sp] ∧
        ∀ x, x ∈ waiting r ↔
             x ∈ successors_function sp (initial_state sp) ∧
             invariant sp x = true ∧ x ≠ initial_state sp) ∧
  (∀ sp', same_but_invariant_at_initial sp sp' →
   ∀ fuel, (check cost_lt sp' goal_pred search_order fuel).1 =
           (check cost_lt sp goal_pred search_order fuel).1) ∧
  invariant_calls cost_lt sp goal_pred search_order 1 (initial_run sp) =
    (if goal_pred (initial_state sp) then []
     else successors_function sp (initial_state sp)) ∧
  (∀ n r r' curr_state,
     iterate cost_lt sp goal_pred search_order n (initial_run sp) = Some r →
     loop_body cost_lt sp goal_pred search_order r = Continue r' →
     passed r' = passed r ++ [curr_state] →
     initial_state sp ∈ successors_function sp curr_state →
     initial_state sp ∈ loop_body_calls cost_lt sp goal_pred search_order r ∧
     (∀ fuel, n < fuel →
        initial_state sp ∈
          invariant_calls cost_lt sp goal_pred search_order fuel (initial_run sp)) ∧
     initial_state sp ∈ passed r' ∧
     initial_state sp ∉ waiting r' ∧
     trace r' !! initial_state sp = None) ∧
  (∀ fuel,
     initial_state sp ∈
       invariant_calls cost_lt sp goal_pred search_order fuel (initial_run sp) →
     ∃ n r r' curr_state,
       n < fuel ∧
       iterate cost_lt sp goal_pred search_order n (initial_run sp) = Some r ∧
       loop_body cost_lt sp goal_pred search_order r = Continue r' ∧
       passed r' = passed r ++ [curr_state] ∧
       initial_state sp ∈ successors_function sp curr_state).
Proof.
  split_and!.
  - apply popstate_singleton.
  - intros Hgoal fuel Hfuel. by apply check_initial_goal.
  - intros Hgoal.
    destruct (first_turn cost_lt sp goal_pred search_order Hgoal)
      as (r & new & Hb & Hturn).
    exists r. split; [done|].
    rewrite (turn_passed _ _ _ _ _ _ _ _ Hturn), (turn_waiting' _ _ _ _ _ _ _ _ Hturn).
    split; [done|]. intros x. simpl.
    rewrite (turn_new _ _ _ _ _ _ _ _ Hturn). simpl. set_solver.
  - intros sp' Hsame fuel. unfold check.
    assert (initial_run sp' = initial_run sp) as ->.
    { destruct Hsame as (Hinit & _ & _ & Hprev & _).
      unfold initial_run. by rewrite Hinit, Hprev. }
    rewrite (check_loop_other_invariant sp' Hsame); [|by right].
    by destruct (check_loop _ _ _ _ _ _).
  - destruct (popstate_singleton cost_lt sp search_order (initial_state sp)
                (previous_cost sp)) as (pc & Hpop).
    simpl. unfold loop_body_calls, loop_body. simpl. rewrite Hpop.
    destruct (goal_pred (initial_state sp)); [done|].
    rewrite expand_calls_successors.
    destruct (expand _ _ _ _). by rewrite app_nil_r.
  - apply rediscovered_initial_state.
  - intros fuel. apply invariant_calls_spec.
Qed.

End InitialState.

(** ** The default cost function *)

Section DefaultCostFunction.
Context {State_t : Type} `{Countable State_t} `{Inhabited State_t}.
Variable sp : state_space_t State_t Z.
Hypothesis Hdefault : cost_function sp = default_cost_function.
Variable goal_pred : State_t → bool.

Lemma popstate_default_cost h t prev_cost :
  popstate Z.ltb sp (h :: t) cost_guided prev_cost = (h, t, 0%Z).
Proof.
  unfold popstate. rewrite Hdefault. unfold default_cost_function. simpl.
  rewrite (min_element_from_const Z.ltb 0 0%Z 1); [done|done|].
  apply Forall_forall. by intros c (? & -> & _)%list_elem_of_fmap.
Qed.

(** C10: with the default cost function, cost-guided order takes the same
    state out of every deque as breadth-first order and leaves the same
    deque; the two searches go through the same runs turn by turn, and
    their outcomes are the same. *)
Theorem default_cost_guided_is_breadth_first :
  (∀ w c1 c2, w ≠ [] →
     (popstate Z.ltb sp w cost_guided c1).1 =
     (popstate Z.ltb sp w breadth_first c2).1) ∧
  (∀ n, match iterate Z.ltb sp goal_pred cost_guided n (initial_run sp),
              iterate Z.ltb sp goal_pred breadth_first n (initial_run sp) with
        | Some r1, Some r2 => same_run r1 r2
        | None, None => True
        | _, _ => False
        end) ∧
  (∀ fuel, (check Z.ltb sp goal_pred cost_guided fuel).1 =
           (check Z.ltb sp goal_pred breadth_first fuel).1).
Proof.
  assert (Hsel : ∀ w c1 c2, w ≠ [] →
            (popstate Z.ltb sp w cost_guided c1).1 =
            (popstate Z.ltb sp w breadth_first c2).1).
  { intros [|h t] c1 c2 Hne; [done|].
    by rewrite popstate_default_cost, popstate_breadth_first. }
  split_and!.
  - done.
  - intros n. by apply iterate_same_selection.
  - intros fuel. unfold check.
    pose proof (check_loop_same_selection Z.ltb sp goal_pred cost_guided
                  breadth_first Hsel fuel (initial_run sp) (initial_run sp)) as Heq.
    destruct (check_loop Z.ltb sp goal_pred cost_guided fuel _),
             (check_loop Z.ltb sp goal_pred breadth_first fuel _).
    by apply Heq.
Qed.

End DefaultCostFunction.

(** ** The leaping frogs *)

(** C8: with two frogs per side the search starts at GG_BB and looks for
    BB_GG; breadth-first order returns the nine states of
    [breadth_first_trace] and depth-first order the nine states of
    [depth_first_trace], both from GG_BB to BB_GG, for every fuel from 32
    on. *)
Theorem frogs_two_per_side fuel :
  32 ≤ fuel →
  Frogs.start_finish 2 =
    ([Frogs.green; Frogs.green; Frogs.empty; Frogs.brown; Frogs.brown],
     [Frogs.brown; Frogs.brown; Frogs.empty; Frogs.green; Frogs.green]) ∧
  Frogs.solve 2 breadth_first fuel = Solution Frogs.breadth_first_trace ∧
  Frogs.solve 2 depth_first fuel = Solution Frogs.depth_first_trace ∧
  length Frogs.breadth_first_trace = 9 ∧
  length Frogs.depth_first_trace = 9 ∧
  head Frogs.breadth_first_trace = Some (Frogs.start_finish 2).1 ∧
  last Frogs.breadth_first_trace = Some (Frogs.start_finish 2).2 ∧
  head Frogs.depth_first_trace = Some (Frogs.start_finish 2).1 ∧
  last Frogs.depth_first_trace = Some (Frogs.start_finish 2).2.
Proof.
  intros Hfuel. replace fuel with (32 + (fuel - 32)) by lia.
  assert (Hmore : ∀ order trace,
            Frogs.solve 2 order 32 = Solution trace →
            Frogs.solve 2 order (32 + (fuel - 32)) = Solution trace).
  { intros order trace Hrun. unfold Frogs.solve. by apply check_fuel_mono. }
  split_and!;
    [ reflexivity
    | apply Hmore; by vm_compute
    | apply Hmore; by vm_compute
    | reflexivity .. ].
Qed.

(** ** The goat, the cabbage and the wolf *)

(** The model of crossing.cpp returns the eleven states of its sample
    output. *)
Example crossing_breadth_first :
  Crossing.solve 40 =
    Solution
      [ [Crossing.shore1; Crossing.shore1; Crossing.shore1];
        [Crossing.shore1; Crossing.travel; Crossing.shore1];
        [Crossing.shore1; Crossing.shore2; Crossing.shore1];
        [Crossing.travel; Crossing.shore2; Crossing.shore1];
        [Crossing.shore2; Crossing.shore2; Crossing.shore1];
        [Crossing.shore2; Crossing.travel; Crossing.shore1];
        [Crossing.shore2; Crossing.shore1; Crossing.shore1];
        [Crossing.shore2; Crossing.shore1; Crossing.travel];
        [Crossing.shore2; Crossing.shore1; Crossing.shore2];
        [Crossing.shore2; Crossing.travel; Crossing.shore2];
        [Crossing.shore2; Crossing.shore2; Crossing.shore2] ].
Proof. by vm_compute. Qed.

(** C9, as it is worded, fails on crossing.cpp: the second turn expands the
    state 1~1, whose successors include the initial state 111 (the goat
    goes back), and [is_valid] is called on it. *)
Lemma invariant_is_called_on_rediscovered_initial_state :
  initial_state Crossing.space ∈
    invariant_calls Z.ltb Crossing.space Crossing.all_on_shore2 breadth_first 2
      (initial_run Crossing.space).
Proof. vm_compute. set_solver. Qed.

(** ** The theorems at concrete engines *)

Lemma Z_ltb_irrefl (a : Z) : (a <? a)%Z = false.
Proof. apply Z.ltb_irrefl. Qed.

Lemma Z_ltb_trans (a b c : Z) :
  (a <? b)%Z = true → (b <? c)%Z = true → (a <? c)%Z = true.
Proof. rewrite !Z.ltb_lt. lia. Qed.

Lemma Z_ltb_cotrans (a b c : Z) :
  (a <? c)%Z = true → (a <? b)%Z = true ∨ (b <? c)%Z = true.
Proof. rewrite !Z.ltb_lt. lia. Qed.

(** The depth-first search of the frogs puzzle is such a solution. *)
Lemma check_solution_is_valid_path_frogs :
  successors_function (Frogs.space 2) = successors Frogs.transitions ∧
  check Z.ltb (Frogs.space 2) (Frogs.is_finish 2) depth_first 24 =
    (Solution Frogs.depth_first_trace, Frogs.space 2) ∧
  ∃ cn,
    Frogs.depth_first_trace !! 0 = Some (initial_state (Frogs.space 2)) ∧
    last Frogs.depth_first_trace = Some cn ∧ Frogs.is_finish 2 cn = true ∧
    (∀ i ci ci',
       Frogs.depth_first_trace !! i = Some ci →
       Frogs.depth_first_trace !! S i = Some ci' →
       ∃ transition, transition ∈ Frogs.transitions ci ∧ transition ci = ci') ∧
    (∀ i ci, 0 < i → Frogs.depth_first_trace !! i = Some ci →
       invariant (Frogs.space 2) ci = true).
Proof.
  assert (Hsucc : successors_function (Frogs.space 2) = successors Frogs.transitions)
    by reflexivity.
  assert (Hcheck : check Z.ltb (Frogs.space 2) (Frogs.is_finish 2) depth_first 24 =
                     (Solution Frogs.depth_first_trace, Frogs.space 2))
    by (vm_compute; reflexivity).
  split; [exact Hsucc|]. split; [exact Hcheck|].
  exact (check_solution_is_valid_path Z.ltb (Frogs.space 2) (Frogs.is_finish 2)
           Frogs.transitions depth_first 24 Frogs.depth_first_trace (Frogs.space 2)
           Hsucc Hcheck).
Defined.

(** No valid path of the frogs puzzle is shorter than its breadth-first
    solution. *)
Lemma breadth_first_solution_is_shortest_frogs :
  check Z.ltb (Frogs.space 2) (Frogs.is_finish 2) breadth_first 32 =
    (Solution Frogs.breadth_first_trace, Frogs.space 2) ∧
  (∃ cn, Frogs.is_finish 2 cn = true ∧
         path_to (Frogs.space 2) cn Frogs.breadth_first_trace) ∧
  ∀ c l, path_to (Frogs.space 2) c l → Frogs.is_finish 2 c = true →
    length Frogs.breadth_first_trace - 1 ≤ length l - 1.
Proof.
  assert (Hcheck : check Z.ltb (Frogs.space 2) (Frogs.is_finish 2) breadth_first 32 =
                     (Solution Frogs.breadth_first_trace, Frogs.space 2))
    by (vm_compute; reflexivity).
  split; [exact Hcheck|].
  exact (breadth_first_solution_is_shortest Z.ltb (Frogs.space 2) (Frogs.is_finish 2)
           32 Frogs.breadth_first_trace (Frogs.space 2) Hcheck).
Defined.

(** A cost-guided turn of the engine of module [Rerun], on the deque 2, 3
    with previous cost 1: the costs are -2 and -3, the state 3 is taken. *)
Lemma cost_guided_selects_first_minimum_rerun :
  let r : run_t Z Z := Run [2%Z; 3%Z] [1%Z] ∅ 1%Z in
  waiting r ≠ [] ∧
  ∃ index state,
    let cost := λ s, cost_function Rerun.engine s (running_cost r) in
    waiting r !! index = Some state ∧
    (∀ j s, waiting r !! j = Some s → (cost s <? cost state)%Z = false) ∧
    (∀ j s, j < index → waiting r !! j = Some s →
            (cost state <? cost s)%Z = true) ∧
    popstate Z.ltb Rerun.engine (waiting r) cost_guided (running_cost r) =
      (state, delete index (waiting r), cost state) ∧
    match loop_body Z.ltb Rerun.engine Rerun.goal cost_guided r with
    | Exhausted _ => False
    | GoalFound curr _ prev_cost => curr = state ∧ prev_cost = cost state
    | Continue r' =>
        last (passed r') = Some state ∧ running_cost r' = cost state
    end.
Proof.
  intros r.
  assert (Hne : waiting r ≠ []) by (simpl; discriminate).
  split; [exact Hne|].
  exact (cost_guided_selects_first_minimum Z.ltb Z_ltb_irrefl Z_ltb_trans
           Z_ltb_cotrans Rerun.engine Rerun.goal r Hne).
Defined.

(** The frogs puzzle under the invariant that accepts the start only. *)
Lemma check_fails_when_frontier_exhausted_frogs :
  (∀ s, s ≠ initial_state (Frogs.blocked_space 2) →
        invariant (Frogs.blocked_space 2) s = false) ∧
  (check Z.ltb (Frogs.blocked_space 2) (Frogs.is_finish 2) depth_first 2).1 =
    NoSolutionFound.
Proof.
  assert (Hrej : ∀ s, s ≠ initial_state (Frogs.blocked_space 2) →
                      invariant (Frogs.blocked_space 2) s = false).
  { intros s Hs. apply bool_decide_eq_false_2. exact Hs. }
  split; [exact Hrej|].
  exact (proj2 (check_fails_when_frontier_exhausted Z.ltb (Frogs.blocked_space 2)
                  (Frogs.is_finish 2) depth_first) Hrej 2 (le_n 2)).
Defined.

(** The first turn of the frogs puzzle: the four successors of the start
    are accepted one after the other. *)
Lemma candidate_admission_frogs :
  let start := (Frogs.start_finish 2).1 in
  ∃ r',
    loop_body Z.ltb (Frogs.space 2) (Frogs.is_finish 2) breadth_first
      (initial_run (Frogs.space 2)) = Continue r' ∧
    passed r' = [start] ∧
    waiting r' =
      [ [Frogs.green; Frogs.empty; Frogs.green; Frogs.brown; Frogs.brown];
        [Frogs.empty; Frogs.green; Frogs.green; Frogs.brown; Frogs.brown];
        [Frogs.green; Frogs.green; Frogs.brown; Frogs.empty; Frogs.brown];
        [Frogs.green; Frogs.green; Frogs.brown; Frogs.brown; Frogs.empty] ] ∧
    ∀ c, c ∈ waiting r' ↔
         c ∈ successors_function (Frogs.space 2) start ∧
         invariant (Frogs.space 2) c = true ∧ c ∉ passed r'.
Proof.
  intros start.
  destruct (loop_body Z.ltb (Frogs.space 2) (Frogs.is_finish 2) breadth_first
              (initial_run (Frogs.space 2))) as [pc|curr t pc|r'] eqn:Hb.
  - vm_compute in Hb. discriminate Hb.
  - vm_compute in Hb. discriminate Hb.
  - exists r'. split; [reflexivity|].
    destruct (candidate_admission Z.ltb (Frogs.space 2) (Frogs.is_finish 2)
                breadth_first (initial_run (Frogs.space 2)) r' Hb)
      as (curr & w' & Hpop & Hpassed & _ & Hend & _ & Hin & _).
    injection Hpop as <- <- _.
    split; [exact Hpassed|]. split.
    + rewrite Hpassed in Hend. apply (f_equal fst) in Hend. simpl in Hend.
      rewrite <- Hend. vm_compute. reflexivity.
    + intros c. rewrite (Hin c). split.
      * intros [Hc|Hc]; [by apply elem_of_nil in Hc|].
        destruct Hc as (? & ? & _ & ?). done.
      * intros (? & ? & ?). right. split_and!; try done. apply not_elem_of_nil.
Defined.

(** The run of the frogs puzzle after three breadth-first turns. *)
Lemma passed_and_waiting_stay_disjoint_frogs :
  ∃ r,
    iterate Z.ltb (Frogs.space 2) (Frogs.is_finish 2) breadth_first 3
      (initial_run (Frogs.space 2)) = Some r ∧
    NoDup (passed r) ∧ NoDup (waiting r) ∧
    (∀ x, x ∈ passed r → x ∉ waiting r).
Proof.
  destruct (iterate Z.ltb (Frogs.space 2) (Frogs.is_finish 2) breadth_first 3
              (initial_run (Frogs.space 2))) as [r|] eqn:Hrun.
  - exists r. split; [reflexivity|].
    pose proof (passed_and_waiting_stay_disjoint Z.ltb (Frogs.space 2)
                  (Frogs.is_finish 2) breadth_first 3 r Hrun) as (Hp & Hw & Hd & _).
    split; [exact Hp|]. split; [exact Hw|exact Hd].
  - vm_compute in Hrun. discriminate Hrun.
Defined.

(** The frogs puzzle with 32 units of fuel. *)
Lemma frogs_two_per_side_32 :
  32 ≤ 32 ∧
  Frogs.solve 2 breadth_first 32 = Solution Frogs.breadth_first_trace ∧
  Frogs.solve 2 depth_first 32 = Solution Frogs.depth_first_trace.
Proof.
  split; [exact (le_n 32)|].
  pose proof (frogs_two_per_side 32 (le_n 32)) as (_ & Hb & Hd & _).
  split; [exact Hb|exact Hd].
Defined.

(** crossing.cpp under an invariant that rejects the start: the start is
    expanded all the same, the second turn expands the state 1~1, which has
    the start among its successors, the invariant is called on the start,
    which is dropped, and the search goes on to the crossing of the sample
    output. *)
Lemma initial_state_is_not_filtered_crossing :
  let sp := crossing_start_rejected in
  let goat_travels := [Crossing.shore1; Crossing.travel; Crossing.shore1] in
  invariant sp (initial_state sp) = false ∧
  same_but_invariant_at_initial Crossing.space sp ∧
  (check Z.ltb sp Crossing.all_on_shore2 breadth_first 40).1 =
    Solution crossing_trace ∧
  invariant_calls Z.ltb sp Crossing.all_on_shore2 breadth_first 1 (initial_run sp) =
    successors_function sp (initial_state sp) ∧
  ∃ r r',
    iterate Z.ltb sp Crossing.all_on_shore2 breadth_first 1 (initial_run sp) =
      Some r ∧
    loop_body Z.ltb sp Crossing.all_on_shore2 breadth_first r = Continue r' ∧
    passed r' = passed r ++ [goat_travels] ∧
    initial_state sp ∈ successors_function sp goat_travels ∧
    initial_state sp ∈
      loop_body_calls Z.ltb sp Crossing.all_on_shore2 breadth_first r ∧
    initial_state sp ∈ passed r' ∧
    initial_state sp ∉ waiting r' ∧
    trace r' !! initial_state sp = None.
Proof.
  intros sp goat_travels.
  assert (Hsame : same_but_invariant_at_initial Crossing.space sp).
  { split_and!; try reflexivity.
    intros s Hs. simpl. rewrite bool_decide_eq_true_2 by exact Hs.
    apply andb_true_r. }
  pose proof (initial_state_is_not_filtered Z.ltb Crossing.space
                Crossing.all_on_shore2 breadth_first) as (_ & _ & _ & Hcheck & _).
  pose proof (initial_state_is_not_filtered Z.ltb sp
                Crossing.all_on_shore2 breadth_first)
    as (_ & _ & _ & _ & Hfirst & Hcalled & _).
  split; [reflexivity|]. split; [exact Hsame|]. split.
  { rewrite (Hcheck sp Hsame 40). vm_compute. reflexivity. }
  split; [exact Hfirst|].
  destruct (iterate Z.ltb sp Crossing.all_on_shore2 breadth_first 1 (initial_run sp))
    as [r|] eqn:Hrun; [|vm_compute in Hrun; discriminate Hrun].
  destruct (loop_body Z.ltb sp Crossing.all_on_shore2 breadth_first r)
    as [pc|c t pc|r'] eqn:Hb.
  - vm_compute in Hrun. injection Hrun as <-. vm_compute in Hb. discriminate Hb.
  - vm_compute in Hrun. injection Hrun as <-. vm_compute in Hb. discriminate Hb.
  - exists r, r'. split; [reflexivity|]. split; [exact Hb|].
    assert (Hp : passed r' = passed r ++ [goat_travels]).
    { vm_compute in Hrun. injection Hrun as <-.
      vm_compute in Hb. injection Hb as <-. reflexivity. }
    assert (Hsucc : initial_state sp ∈ successors_function sp goat_travels).
    { vm_compute. apply list_elem_of_further, list_elem_of_here. }
    destruct (Hcalled 1 r r' goat_travels Hrun Hb Hp Hsucc)
      as (Hcall & _ & Hin & Hout & Ht).
    split; [exact Hp|]. split; [exact Hsucc|]. split; [exact Hcall|].
    split; [exact Hin|]. split; [exact Hout|exact Ht].
Defined.

(** The engine of the frogs puzzle has the default cost function. *)
Lemma default_cost_guided_is_breadth_first_frogs :
  cost_function (Frogs.space 2) = default_cost_function ∧
  ∀ fuel,
    (check Z.ltb (Frogs.space 2) (Frogs.is_finish 2) cost_guided fuel).1 =
    (check Z.ltb (Frogs.space 2) (Frogs.is_finish 2) breadth_first fuel).1.
Proof.
  assert (Hdefault : cost_function (Frogs.space 2) = default_cost_function)
    by reflexivity.
  split; [exact Hdefault|].
  exact (proj2 (proj2 (default_cost_guided_is_breadth_first (Frogs.space 2) Hdefault
                         (Frogs.is_finish 2)))).
Defined.


(** ** What the search decides *)

Section Reachability.
Context {State_t : Type} `{Countable State_t} `{Inhabited State_t}.
Context {Cost_t : Type} `{Inhabited Cost_t}.
Variable cost_lt : Cost_t → Cost_t → bool.
Variable sp : state_space_t State_t Cost_t.
Variable goal_pred : State_t → bool.
Variable search_order : search_order_t.

Local Abbreviation body := (loop_body cost_lt sp goal_pred search_order).
Local Abbreviation loop := (check_loop cost_lt sp goal_pred search_order).
Local Abbreviation turns := (iterate cost_lt sp goal_pred search_order).

Lemma check_loop_NoSolutionFound fuel : ∀ r prev_cost,
  loop fuel r = (NoSolutionFound, prev_cost) →
  ∃ n r', turns n r = Some r' ∧ waiting r' = [].
Proof.
  induction fuel as [|fuel IH]; intros r pc Hl; simpl in Hl; [done|].
  destruct (body r) as [pc'|curr t pc'|r1] eqn:Hb.
  - exists 0, r. split; [done|]. by apply loop_body_Exhausted in Hb as [? _].
  - by destruct (get_solution_from_trace sp fuel t curr).
  - destruct (IH _ _ Hl) as (n & r' & Hn & Hw).
    exists (S n), r'. split; [|done]. simpl. by rewrite Hb.
Qed.

(** Every state the run knows is reached by a valid path. *)
Lemma known_is_reachable d r x :
  run_inv sp goal_pred d r → x ∈ passed r ++ waiting r →
  ∃ l, path_to sp x l.
Proof.
  intros Hinv Hx.
  destruct (backtrack_spec sp goal_pred d r Hinv (d x) x eq_refl Hx)
    as (chain & Hpath & _).
  by exists chain.
Qed.

(** When the deque is empty every state with a valid path was passed. *)
Lemma exhausted_run_is_closed d r :
  run_inv sp goal_pred d r → waiting r = [] →
  ∀ x l, path_to sp x l → x ∈ passed r.
Proof.
  intros Hinv Hw. induction 1 as [|p x l Hp IH Hs Hi].
  - pose proof (inv_initial _ _ _ _ Hinv) as Hin.
    by rewrite Hw, app_nil_r in Hin.
  - pose proof (inv_closed _ _ _ _ Hinv p x IH Hs Hi) as Hin.
    by rewrite Hw, app_nil_r in Hin.
Qed.

Lemma NoSolutionFound_unreachable fuel :
  (check cost_lt sp goal_pred search_order fuel).1 = NoSolutionFound →
  ∀ x l, path_to sp x l → goal_pred x = false.
Proof.
  unfold check.
  destruct (loop fuel (initial_run sp)) as [res pc] eqn:Hloop. simpl. intros ->.
  destruct (check_loop_NoSolutionFound _ _ _ Hloop) as (n & r & Hturns & Hw).
  destruct (iterate_run_inv _ _ _ _ _ _ _ _
              (run_inv_initial_run sp goal_pred) Hturns) as (d & Hinv).
  intros x l Hpath. apply (inv_not_goal _ _ _ _ Hinv).
  by eapply exhausted_run_is_closed.
Qed.

(** The [logic_error] of [check] is never thrown while a goal state can be
    reached: when [check] ends with [NoSolutionFound], the goal predicate
    rejects every state that a sequence of successors accepted by the
    invariant leads to from the initial state. *)
Theorem no_solution_means_no_goal_is_reachable fuel sp' :
  check cost_lt sp goal_pred search_order fuel = (NoSolutionFound, sp') →
  ∀ x l, path_to sp x l → goal_pred x = false.
Proof.
  intros Hcheck. apply (NoSolutionFound_unreachable fuel). by rewrite Hcheck.
Qed.

Lemma iterate_stops n : ∀ r,
  turns n r = None →
  ∃ k r', k < n ∧ turns k r = Some r' ∧ ∀ r'', body r' ≠ Continue r''.
Proof.
  induction n as [|n IH]; intros r Hn; simpl in Hn; [done|].
  destruct (body r) as [pc|curr t pc|r1] eqn:Hb.
  - exists 0, r. split_and!; [lia|done|]. intros r''. by rewrite Hb.
  - exists 0, r. split_and!; [lia|done|]. intros r''. by rewrite Hb.
  - destruct (IH _ Hn) as (k & r' & Hk & Hturns & Hstop).
    exists (S k), r'. split_and!; [lia| |done]. simpl. by rewrite Hb.
Qed.

Section FiniteStateSpace.
(** All the states that valid paths lead to are among finitely many. *)
Variable universe : list State_t.
Hypothesis Huniverse : ∀ x l, path_to sp x l → x ∈ universe.

Lemma turns_bounded n r :
  turns n (initial_run sp) = Some r →
  n + length (waiting r) ≤ length universe.
Proof.
  intros Hturns.
  destruct (iterate_run_inv _ _ _ _ _ _ _ _
              (run_inv_initial_run sp goal_pred) Hturns) as (d & Hinv).
  pose proof (iterate_passed_length _ _ _ _ _ _ _ Hturns) as Hlen. simpl in Hlen.
  rewrite <- Hlen, <- length_app. apply submseteq_length, NoDup_submseteq.
  - apply Hinv.
  - intros x Hx. destruct (known_is_reachable d r x Hinv Hx) as (l & Hl).
    by eapply Huniverse.
Qed.

Lemma check_leaves_the_loop :
  ∃ n r, n ≤ length universe ∧ turns n (initial_run sp) = Some r ∧
         ∀ r'', body r ≠ Continue r''.
Proof.
  destruct (turns (S (length universe)) (initial_run sp)) as [r|] eqn:Hturns.
  - apply turns_bounded in Hturns. lia.
  - destruct (iterate_stops _ _ Hturns) as (k & r' & Hk & Hturns' & Hstop).
    exists k, r'. split_and!; [lia|done|done].
Qed.

(** On a finite state space [check] ends, and before [2 * N + 2] units of
    fuel are used, [N] the number of states. *)
Lemma check_ends_on_finite_state_space :
  ∃ res, res ≠ OutOfFuel ∧
    ∀ fuel, 2 * length universe + 2 ≤ fuel →
      (check cost_lt sp goal_pred search_order fuel).1 = res.
Proof.
  destruct check_leaves_the_loop as (n & r & Hn & Hturns & Hstop).
  destruct (loop_body_cases cost_lt sp goal_pred search_order r)
    as [[Hw Hb]|[(curr & pc & Hb)|(r' & Hb)]].
  - exists NoSolutionFound. split; [done|]. intros fuel Hfuel. unfold check.
    rewrite (check_loop_Exhausted _ _ _ _ _ _ _ _ Hturns Hw); [done|lia].
  - destruct (check_returns_when_goal_selected _ _ _ _ _ _ _ _ Hturns Hb)
      as (solution & Hsol).
    exists (Solution solution). split; [done|]. intros fuel Hfuel.
    rewrite Hsol; [done|lia].
  - by destruct (Hstop r').
Qed.

(** On a finite state space [check] decides whether a goal state can be
    reached: with [2 * N + 2] units of fuel or more, [N] the number of
    states, it returns a solution when some valid path leads to a state
    that the goal predicate accepts, and ends with [NoSolutionFound] when
    none does. *)
Theorem check_decides_reachability_on_finite_state_space fuel :
  2 * length universe + 2 ≤ fuel →
  ((∃ x l, path_to sp x l ∧ goal_pred x = true) →
   ∃ solution,
     (check cost_lt sp goal_pred search_order fuel).1 = Solution solution) ∧
  ((∀ x l, path_to sp x l → goal_pred x = false) →
   (check cost_lt sp goal_pred search_order fuel).1 = NoSolutionFound).
Proof.
  intros Hfuel.
  destruct check_ends_on_finite_state_space as (res & Hres & Hcheck).
  specialize (Hcheck fuel Hfuel). split.
  - intros (x & l & Hpath & Hgoal).
    destruct res as [solution| |]; [by exists solution| |done].
    by rewrite (NoSolutionFound_unreachable fuel Hcheck x l Hpath) in Hgoal.
  - intros Hnone. destruct res as [solution| |]; [|done|done].
    destruct (check cost_lt sp goal_pred search_order fuel) as [res' sp'] eqn:Hc.
    simpl in Hcheck. subst res'.
    destruct (check_Solution_path _ _ _ _ _ _ _ Hc)
      as (d & r & cn & _ & _ & _ & _ & Hgoal & Hpath & _).
    by rewrite (Hnone cn solution Hpath) in Hgoal.
Qed.

End FiniteStateSpace.

End Reachability.

(** ** The shape of a solution and of the trace map *)

Section SolutionShape.
Context {State_t : Type} `{Countable State_t} `{Inhabited State_t}.
Context {Cost_t : Type} `{Inhabited Cost_t}.
Variable cost_lt : Cost_t → Cost_t → bool.
Variable sp : state_space_t State_t Cost_t.
Variable goal_pred : State_t → bool.
Variable search_order : search_order_t.

Local Abbreviation turns := (iterate cost_lt sp goal_pred search_order).

(** The backward walk from a known state of depth [n] meets one state of
    every depth from [n] down to 0, all passed but the first. *)
Lemma backtrack_depths d r :
  run_inv sp goal_pred d r →
  ∀ n x, d x = n → x ∈ passed r ++ waiting r →
  ∃ chain,
    length chain = S n ∧ chain !! n = Some x ∧
    (∀ i c, chain !! i = Some c → d c = i) ∧
    (∀ i c, chain !! i = Some c → i < n → c ∈ passed r) ∧
    ∀ fuel acc,
      backtrack sp fuel (trace r) x (x :: acc) =
        if decide (n < fuel) then Some (chain ++ acc) else None.
Proof.
  intros Hinv. induction n as [|n IH]; intros x Hd Hx.
  - assert (x = initial_state sp) as ->.
    { destruct (decide (x = initial_state sp)) as [|Hne]; [done|].
      destruct (inv_trace _ _ _ _ Hinv x Hx Hne) as (p & _ & _ & Hdp & _). lia. }
    exists [initial_state sp]. split_and!; [done|done| | |].
    + intros [|i] c; simpl; [|done]. by intros [= <-].
    + intros i c _ Hi. lia.
    + intros [|fuel] acc; simpl; [done|]. by rewrite decide_True.
  - assert (Hne : x ≠ initial_state sp).
    { intros ->. rewrite (inv_initial_depth _ _ _ _ Hinv) in Hd. lia. }
    destruct (inv_trace _ _ _ _ Hinv x Hx Hne) as (p & Ht & Hp & Hdp & Hs & Hi).
    destruct (IH p) as (chain & Hlen & Hlast & Hdepth & Hpassed & Hwalk);
      [lia|set_solver|].
    exists (chain ++ [x]). split_and!.
    + rewrite length_app; simpl. lia.
    + rewrite lookup_app_r by lia. by replace (S n - length chain) with 0 by lia.
    + intros i c Hc. apply lookup_app_Some in Hc as [Hc|[Hge Hc]]; [by apply Hdepth|].
      apply list_lookup_singleton_Some in Hc as [Hi0 <-]. lia.
    + intros i c Hc Hlt. apply lookup_app_Some in Hc as [Hc|[Hge Hc]].
      * destruct (decide (i < n)) as [Hin|Hin]; [by eapply Hpassed|].
        assert (i = n) as -> by (apply lookup_lt_Some in Hc; lia).
        rewrite Hlast in Hc. by injection Hc as <-.
      * apply lookup_lt_Some in Hc. simpl in Hc. lia.
    + intros [|fuel] acc; simpl; [done|]. rewrite decide_False by done.
      unfold trace_index. rewrite Ht, Hwalk, <- app_assoc. simpl.
      destruct (decide (n < fuel)), (decide (S n < S fuel)); (done || lia).
Qed.

(** A solution returned by [check] never goes through a state twice, and
    the goal predicate rejects every state of it but the last: the search
    stops at the first goal state it selects. *)
Theorem solution_is_a_simple_path fuel solution sp' :
  check cost_lt sp goal_pred search_order fuel = (Solution solution, sp') →
  NoDup solution ∧
  ∀ i c, solution !! i = Some c → S i < length solution → goal_pred c = false.
Proof.
  unfold check.
  destruct (check_loop _ _ _ _ _ _) as [res pc] eqn:Hloop. intros [= -> <-].
  destruct (check_loop_Solution _ _ _ _ _ _ _ _ Hloop)
    as (n & r & cn & Hn & Hturns & Hbody & Hsol).
  destruct (loop_body_GoalFound _ _ _ _ _ _ _ _ Hbody)
    as (l1 & l2 & Hw & Hgoal & _ & _ & _).
  destruct (iterate_run_inv _ _ _ _ _ _ _ _
              (run_inv_initial_run sp goal_pred) Hturns) as (d & Hinv).
  destruct (backtrack_depths d r Hinv (d cn) cn eq_refl)
    as (chain & Hlen & _ & Hdepth & Hpassed & Hwalk).
  { rewrite Hw. set_solver. }
  unfold get_solution_from_trace in Hsol. rewrite Hwalk, app_nil_r in Hsol.
  destruct (decide _); [|done]. injection Hsol as <-. split.
  - apply NoDup_alt. intros i j c Hi Hj.
    by rewrite <- (Hdepth i c Hi), <- (Hdepth j c Hj).
  - intros i c Hc Hlt. apply (inv_not_goal _ _ _ _ Hinv).
    apply (Hpassed i c Hc). lia.
Qed.

(** The keys of the trace map are the known states but the initial one. *)
Lemma trace_keys n : ∀ r,
  turns n (initial_run sp) = Some r →
  ∀ x, is_Some (trace r !! x) ↔ x ∈ passed r ++ waiting r ∧ x ≠ initial_state sp.
Proof.
  induction n as [|n IH] using nat_ind; intros r Hturns x.
  - injection Hturns as <-. simpl. rewrite lookup_empty. split.
    + by intros [? ?].
    + intros [->%list_elem_of_singleton Hne]. done.
  - assert (∃ r0, turns n (initial_run sp) = Some r0 ∧
                  loop_body cost_lt sp goal_pred search_order r0 = Continue r)
      as (r0 & Hturns0 & Hb).
    { clear IH. revert Hturns. generalize (initial_run sp).
      induction n as [|n IHn]; intros r1; simpl.
      - destruct (loop_body _ _ _ _ r1) as [| |r2] eqn:Hb; try done.
        intros [= ->]. by exists r1.
      - destruct (loop_body _ _ _ _ r1) as [| |r2] eqn:Hb; try done.
        intros Hrest. apply (IHn r2) in Hrest as (r0 & ? & ?). by exists r0. }
    destruct (iterate_run_inv _ _ _ _ _ _ _ _
                (run_inv_initial_run sp goal_pred) Hturns0) as (d & Hinv).
    destruct (loop_body_Continue _ _ _ _ _ _ Hb) as (l1 & curr & l2 & new & Hturn & _).
    rewrite (turn_known sp goal_pred d r0 r l1 curr l2 new Hinv Hturn).
    destruct (decide (x ∈ new)) as [Hnew|Hnew].
    + rewrite (turn_trace_new _ _ _ _ _ _ _ _ Hturn x Hnew). split; [|by eauto].
      intros _. split; [by right|]. intros ->.
      apply (turn_fresh sp goal_pred d r0 r l1 curr l2 new Hinv Hturn _ Hnew).
      apply Hinv.
    + rewrite (turn_trace_old _ _ _ _ _ _ _ _ Hturn x Hnew), (IH r0 Hturns0 x).
      naive_solver.
Qed.

(** The trace map has no entry for the initial state and one for every
    other known state; an entry, once written, is never written again: at
    every later turn it still names the state that first led to its key. *)
Theorem trace_map_is_written_once n r :
  turns n (initial_run sp) = Some r →
  trace r !! initial_state sp = None ∧
  (∀ x, is_Some (trace r !! x) ↔
        x ∈ passed r ++ waiting r ∧ x ≠ initial_state sp) ∧
  ∀ m r' x, turns m r = Some r' → x ∈ passed r ++ waiting r →
    trace r' !! x = trace r !! x.
Proof.
  intros Hturns. split_and!.
  - apply eq_None_not_Some. intros [_ Hne]%(trace_keys n r Hturns). done.
  - apply (trace_keys n r Hturns).
  - destruct (iterate_run_inv _ _ _ _ _ _ _ _
                (run_inv_initial_run sp goal_pred) Hturns) as (d & Hinv).
    clear Hturns. intros m. revert r d Hinv.
    induction m as [|m IH]; intros r d Hinv r' x; simpl.
    + by intros [= <-].
    + destruct (loop_body _ _ _ _ r) as [| |r1] eqn:Hb; try done.
      destruct (loop_body_Continue _ _ _ _ _ _ Hb) as (l1 & curr & l2 & new & Hturn & _).
      intros Hrest Hx.
      rewrite (IH r1 (depth_after d curr new)
                 (run_inv_turn sp goal_pred d r r1 l1 curr l2 new Hinv Hturn) r' x Hrest).
      * apply (turn_trace_old _ _ _ _ _ _ _ _ Hturn). intros Hnew.
        by apply (turn_fresh sp goal_pred d r r1 l1 curr l2 new Hinv Hturn x Hnew).
      * apply (turn_known sp goal_pred d r r1 l1 curr l2 new Hinv Hturn). by left.
Qed.

End SolutionShape.

(** ** Orders of selection *)

Section SelectionOrder.
Context {State_t : Type} `{Countable State_t} `{Inhabited State_t}.
Context {Cost_t : Type} `{Inhabited Cost_t}.
Variable cost_lt : Cost_t → Cost_t → bool.
Variable sp : state_space_t State_t Cost_t.
Variable goal_pred : State_t → bool.

(** [popstate] takes exactly one state out of a deque that is not empty and
    keeps the others in their order: the last one under depth-first order,
    the first one under breadth-first order; and only cost-guided order
    writes the member [previous_cost]. *)
Theorem popstate_takes_one_state_out waiting search_order prev_cost :
  waiting ≠ [] →
  ∃ l1 state l2 prev_cost',
    waiting = l1 ++ state :: l2 ∧
    popstate cost_lt sp waiting search_order prev_cost =
      (state, l1 ++ l2, prev_cost') ∧
    (search_order = depth_first → l2 = []) ∧
    (search_order = breadth_first → l1 = []) ∧
    (search_order ≠ cost_guided → prev_cost' = prev_cost).
Proof.
  intros Hne. destruct search_order.
  - destruct (exists_last Hne) as (l & x & ->).
    exists l, x, [], prev_cost. rewrite app_nil_r.
    by rewrite popstate_depth_first.
  - destruct waiting as [|h t]; [done|].
    by exists [], h, t, prev_cost.
  - destruct (popstate_split cost_lt sp waiting cost_guided prev_cost Hne)
      as (l1 & state & l2 & pc & Hw & Hpop & _).
    by exists l1, state, l2, pc.
Qed.

(** Under breadth-first order the sequence of the passed states followed by
    the deque only ever grows at its end, and the states passed during the
    next [m] turns are the first [m] of the deque as it then becomes:
    states are selected in the order in which they were first met. *)
Theorem breadth_first_is_first_in_first_out m : ∀ r r',
  iterate cost_lt sp goal_pred breadth_first m r = Some r' →
  ∃ new,
    passed r' ++ waiting r' = (passed r ++ waiting r) ++ new ∧
    passed r' = passed r ++ take m (waiting r ++ new).
Proof.
  induction m as [|m IH]; intros r r'; simpl.
  - intros [= <-]. exists []. by rewrite !app_nil_r.
  - destruct (loop_body _ _ _ _ r) as [| |r1] eqn:Hb; try done.
    destruct (loop_body_Continue _ _ _ _ _ _ Hb)
      as (l1 & curr & l2 & new1 & Hturn & _ & Hl1).
    rewrite (Hl1 eq_refl) in Hturn.
    intros (new' & Hknown & Hpassed)%IH.
    rewrite (turn_passed _ _ _ _ _ _ _ _ Hturn),
      (turn_waiting' _ _ _ _ _ _ _ _ Hturn) in Hknown, Hpassed.
    rewrite (turn_waiting _ _ _ _ _ _ _ _ Hturn). simpl in *.
    exists (new1 ++ new'). split.
    + rewrite Hknown. by rewrite <- !app_assoc.
    + rewrite Hpassed. by rewrite <- !app_assoc.
Qed.

Lemma check_loop_keeps_cost search_order fuel : ∀ r res prev_cost,
  search_order ≠ cost_guided →
  check_loop cost_lt sp goal_pred search_order fuel r = (res, prev_cost) →
  prev_cost = running_cost r.
Proof.
  induction fuel as [|fuel IH]; intros r res pc Hord; simpl.
  - by intros [= _ <-].
  - destruct (loop_body _ _ _ _ r) as [pc'|curr t pc'|r1] eqn:Hb.
    + apply loop_body_Exhausted in Hb as [_ ->]. by intros [= _ <-].
    + destruct (loop_body_GoalFound _ _ _ _ _ _ _ _ Hb) as (l1 & l2 & _ & _ & _ & Hpop & _).
      intros [= _ <-]. by destruct search_order; try done; injection Hpop.
    + destruct (loop_body_Continue _ _ _ _ _ _ Hb) as (l1 & curr & l2 & new & _ & Hpop & _).
      intros ->%IH; [|done]. by destruct search_order; try done; injection Hpop.
Qed.

(** A depth-first or breadth-first search leaves the engine as it was: the
    member [previous_cost] is written under cost-guided order only. *)
Theorem only_cost_guided_search_writes_previous_cost search_order fuel :
  search_order ≠ cost_guided →
  (check cost_lt sp goal_pred search_order fuel).2 = sp.
Proof.
  intros Hord. unfold check.
  destruct (check_loop _ _ _ _ _ _) as [res pc] eqn:Hloop. simpl.
  rewrite (check_loop_keeps_cost _ _ _ _ _ Hord Hloop). simpl.
  by destruct sp.
Qed.


End SelectionOrder.

(** [successors] gives one successor for every transition, in the order of
    the transitions, each the result of the transition on the same current
    state: no transition sees what another one did. *)
Theorem successors_follow_the_transitions {state_t : Type}
    (transitions : state_t → list (state_t → state_t)) (s : state_t) :
  length (successors transitions s) = length (transitions s) ∧
  ∀ i, successors transitions s !! i = (λ t, t s) <$> transitions s !! i.
Proof.
  rewrite successors_fmap. split; [apply length_fmap|].
  intros i. apply list_lookup_fmap.
Qed.

(** ** The moves of the frogs *)

Section FrogMoves.
Import Frogs.

Lemma find_empty_le (stones : stones_t) : find_empty stones ≤ length stones.
Proof.
  induction stones as [|f rest IH]; simpl; [lia|].
  destruct (decide (f = empty)); lia.
Qed.

Lemma find_empty_lookup (stones : stones_t) :
  find_empty stones < length stones →
  stones !! find_empty stones = Some empty.
Proof.
  induction stones as [|f rest IH]; simpl; [lia|].
  destruct (decide (f = empty)) as [->|]; [done|]. intros Hlt. apply IH. lia.
Qed.


(** Exchanging what two different places of a list hold gives a
    permutation of the list. *)
Lemma insert_Permutation {A : Type} (l : list A) : ∀ j b x,
  l !! j = Some b → b :: <[j := x]> l ≡ₚ x :: l.
Proof.
  induction l as [|c l IH]; intros [|j] b x; simpl; try done.
  - intros [= ->]. apply perm_swap.
  - intros Hj. rewrite (perm_swap c b), (IH j b x Hj). apply perm_swap.
Qed.

Lemma swap_Permutation {A : Type} (l : list A) : ∀ i j a b,
  l !! i = Some a → l !! j = Some b → i ≠ j →
  <[j := a]> (<[i := b]> l) ≡ₚ l.
Proof.
  induction l as [|c l IH]; intros [|i] [|j] a b; simpl; try done.
  - intros [= ->] Hj _. by apply insert_Permutation.
  - intros Hi [= ->] _. by apply insert_Permutation.
  - intros Hi Hj Hne. apply Permutation_skip, (IH i j a b Hi Hj). lia.
Qed.

(** Every successor comes from one jump into the first empty stone: of a
    green frog from one or two stones to its left, or of a brown frog from
    one or two stones to its right. *)
Lemma frogs_successor_jump (stones y : stones_t) :
  y ∈ successors transitions stones →
  ∃ from to who,
    to = find_empty stones ∧ stones !! to = Some empty ∧
    stones !! from = Some who ∧
    ((who = green ∧ (to = from + 1 ∨ to = from + 2)) ∨
     (who = brown ∧ (from = to + 1 ∨ from = to + 2))) ∧
    y = <[to := who]> (<[from := empty]> stones).
Proof.
  intros (t & Ht & <-)%elem_of_successors. unfold transitions in Ht.
  destruct (decide (length stones < 2)); [by apply elem_of_nil in Ht|].
  destruct (decide (find_empty stones = length stones));
    [by apply elem_of_nil in Ht|].
  pose proof (find_empty_le stones) as Hle.
  assert (Hi : stones !! find_empty stones = Some empty)
    by (apply find_empty_lookup; lia).
  set (i := find_empty stones) in *.
  rewrite !elem_of_app in Ht.
  destruct Ht as [Ht|[Ht|[Ht|Ht]]];
    (destruct (decide _) as [[Hlt Hlook]|]; [|by apply elem_of_nil in Ht]);
    apply list_elem_of_singleton in Ht as ->.
  - exists (i - 1), i, green. split_and!; try done. left. split; [done|]. left. lia.
  - exists (i - 2), i, green. split_and!; try done. left. split; [done|]. right. lia.
  - exists (i + 1), i, brown. split_and!; try done. right. split; [done|]. by left.
  - exists (i + 2), i, brown. split_and!; try done. right. split; [done|]. by right.
Qed.

Lemma frogs_successor_Permutation (stones y : stones_t) :
  y ∈ successors transitions stones → y ≡ₚ stones.
Proof.
  intros (from & to & who & _ & Hto & Hfrom & Hdir & ->)%frogs_successor_jump.
  apply swap_Permutation; [done|done|]. destruct Hdir as [[_ ?]|[_ ?]]; lia.
Qed.



End FrogMoves.

(** ** Setting the frogs up, and searching for any number of them *)

Section FrogsSetup.
Import Frogs.

(** The loop of [solve] that places the frogs, seen stone by stone: after
    [k] turns on two rows of [len] stones, the first [k] stones hold the
    frogs of one colour, the last [k] those of the other, the rest is as
    it was. *)
Lemma place_lookup len k : ∀ (start finish : stones_t) i,
  length start = len → length finish = len → k + k < len →
  (place k (start, finish)).1 !! i =
    (if decide (i < k) then Some green
     else if decide (len - k ≤ i < len) then Some brown
     else start !! i) ∧
  (place k (start, finish)).2 !! i =
    (if decide (i < k) then Some brown
     else if decide (len - k ≤ i < len) then Some green
     else finish !! i).
Proof.
  induction k as [|k IH]; intros start finish i Hs Hf Hk.
  - simpl. split; repeat case_decide; (done || lia).
  - cbn [place]. rewrite Hs, Hf.
    destruct (IH (<[len - k - 1 := brown]> (<[k := green]> start))
                 (<[len - k - 1 := green]> (<[k := brown]> finish)) i)
      as [-> ->]; [unfold stones_t in *; by rewrite !length_insert..|lia|].
    unfold stones_t in *.
    rewrite !list_lookup_insert, !length_insert, Hs, Hf.
    split; repeat case_decide; (done || lia).
Qed.

Lemma row_lookup (n : nat) (left right : frog) i :
  (replicate n left ++ [empty] ++ replicate n right) !! i =
    if decide (i < n) then Some left
    else if decide (n * 2 + 1 - n ≤ i < n * 2 + 1) then Some right
    else replicate (n * 2 + 1) empty !! i.
Proof.
  destruct (decide (i < n)).
  - rewrite lookup_app_l by (rewrite length_replicate; lia).
    by apply lookup_replicate_2.
  - rewrite lookup_app_r by (rewrite length_replicate; lia).
    rewrite length_replicate.
    destruct (decide (n * 2 + 1 - n ≤ i < n * 2 + 1)).
    + rewrite lookup_app_r by (simpl; lia). simpl.
      apply lookup_replicate_2. lia.
    + destruct (decide (i = n)) as [->|].
      * replace (n - n) with 0 by lia. simpl. symmetry.
        apply lookup_replicate_2. lia.
      * rewrite lookup_app_r by (simpl; lia). simpl.
        rewrite !lookup_ge_None_2; [done|rewrite length_replicate; lia..].
Qed.

(** For every number of frogs whose row fits [size_t] ([frogs*2+1] below
    2^64), [solve] starts from that many green frogs, one empty stone and
    that many brown frogs, and looks for the same row with the colours
    exchanged. *)
Theorem frogs_start_and_finish (frogs : nat) :
  (Z.of_nat frogs * 2 + 1 < 2 ^ 64)%Z →
  start_finish frogs =
    (replicate frogs green ++ [empty] ++ replicate frogs brown,
     replicate frogs brown ++ [empty] ++ replicate frogs green).
Proof.
  intros _. unfold start_finish.
  destruct (place frogs _) as [start finish] eqn:Hplace.
  f_equal; apply list_eq; intros i; rewrite row_lookup.
  - change start with (start, finish).1. rewrite <- Hplace.
    apply place_lookup; rewrite ?length_replicate; lia.
  - change finish with (start, finish).2. rewrite <- Hplace.
    apply place_lookup; rewrite ?length_replicate; lia.
Qed.

Lemma frogs_path_Permutation (frogs : nat) x l :
  path_to (space frogs) x l → x ≡ₚ (start_finish frogs).1.
Proof.
  induction 1 as [|p x l Hp IH Hs Hi]; [done|].
  rewrite <- IH. by apply frogs_successor_Permutation.
Qed.

(** For every number of frogs whose row the 32-bit index of [transitions]
    can walk ([frogs*2+1] below 2^32, so that [size_t] does not wrap
    around either) and every search order [solve] ends: it returns a
    solution or throws, with the same outcome for every fuel from a bound
    on, and it throws only when no sequence of jumps leads from the start
    to the finish. *)
Theorem frogs_solve_ends (frogs : nat) (order : search_order_t) :
  (Z.of_nat frogs * 2 + 1 < 2 ^ 32)%Z →
  ∃ res,
    res ≠ OutOfFuel ∧
    (∀ fuel, 2 * length (permutations (start_finish frogs).1) + 2 ≤ fuel →
       solve frogs order fuel = res) ∧
    (res = NoSolutionFound →
     ∀ l, ¬ path_to (space frogs) (start_finish frogs).2 l).
Proof.
  intros _.
  destruct (check_ends_on_finite_state_space Z.ltb (space frogs)
              (is_finish frogs) order (permutations (start_finish frogs).1))
    as (res & Hres & Hcheck).
  { intros x l Hpath. apply permutations_Permutation.
    symmetry. by eapply frogs_path_Permutation. }
  exists res. split_and!; [done|done|].
  intros -> l Hpath.
  pose proof (NoSolutionFound_unreachable Z.ltb (space frogs) (is_finish frogs)
                order _ (Hcheck _ (le_n _)) _ l Hpath) as Hgoal.
  unfold is_finish in Hgoal. by rewrite bool_decide_eq_true_2 in Hgoal.
Qed.

End FrogsSetup.

(** ** Cost functions that do not look at the state *)

Section StateIndependentCost.
Context {State_t : Type} `{Countable State_t} `{Inhabited State_t}.
Context {Cost_t : Type} `{Inhabited Cost_t}.
Variable cost_lt : Cost_t → Cost_t → bool.
Hypothesis lt_irrefl : ∀ a, cost_lt a a = false.
Variable sp : state_space_t State_t Cost_t.
Hypothesis Hcost : ∀ s1 s2 prev_cost,
  cost_function sp s1 prev_cost = cost_function sp s2 prev_cost.
Variable goal_pred : State_t → bool.

Lemma popstate_state_independent_cost h t prev_cost :
  popstate cost_lt sp (h :: t) cost_guided prev_cost =
    (h, t, cost_function sp h prev_cost).
Proof.
  unfold popstate. simpl.
  rewrite (min_element_from_const cost_lt 0 (cost_function sp h prev_cost) 1);
    [done|done|].
  apply Forall_forall. intros c (s & -> & _)%list_elem_of_fmap. apply Hcost.
Qed.

(** When the cost function gives every state of the deque the same cost,
    as one that only counts the depth does, no cost is strictly smaller
    than the first and cost-guided order selects the front of the deque:
    the search returns what a breadth-first search returns. *)
Theorem state_independent_cost_is_breadth_first :
  (∀ w c1 c2, w ≠ [] →
     (popstate cost_lt sp w cost_guided c1).1 =
     (popstate cost_lt sp w breadth_first c2).1) ∧
  ∀ fuel, (check cost_lt sp goal_pred cost_guided fuel).1 =
          (check cost_lt sp goal_pred breadth_first fuel).1.
Proof.
  assert (Hsel : ∀ w c1 c2, w ≠ [] →
            (popstate cost_lt sp w cost_guided c1).1 =
            (popstate cost_lt sp w breadth_first c2).1).
  { intros [|h t] c1 c2 Hne; [done|].
    by rewrite popstate_state_independent_cost, popstate_breadth_first. }
  split; [done|]. intros fuel. unfold check.
  pose proof (check_loop_same_selection cost_lt sp goal_pred cost_guided
                breadth_first Hsel fuel (initial_run sp) (initial_run sp)) as Heq.
  destruct (check_loop cost_lt sp goal_pred cost_guided fuel _),
           (check_loop cost_lt sp goal_pred breadth_first fuel _).
  by apply Heq.
Qed.

End StateIndependentCost.

(** ** Lists of transitions built position by position *)

Lemma elem_of_foldl_app {A B : Type} (f : B → list A) (l : list B) : ∀ init x,
  x ∈ foldl (λ res i, res ++ f i) init l ↔
  x ∈ init ∨ ∃ i, i ∈ l ∧ x ∈ f i.
Proof.
  induction l as [|b l IH]; intros init x; simpl.
  - split; [by left|]. intros [?|(i & ?%elem_of_nil & _)]; done.
  - rewrite IH, elem_of_app. split.
    + intros [[?|?]|(i & ? & ?)]; [by left|right|right].
      * exists b. split; [by left|done].
      * exists i. split; [by right|done].
    + intros [?|(i & [->|?]%elem_of_cons & ?)]; [by left; left|by left; right|].
      right. by exists i.
Qed.

Lemma length_filter_insert {A : Type} (P : A → Prop)
    {Hdec : ∀ x, Decision (P x)} (l : list A) : ∀ i x y,
  l !! i = Some x →
  length (filter P (<[i := y]> l)) + (if decide (P x) then 1 else 0) =
  length (filter P l) + (if decide (P y) then 1 else 0).
Proof.
  induction l as [|a l IH]; intros [|i] x y; simpl; try done.
  - intros [= ->]. rewrite !filter_cons.
    destruct (decide (P x)), (decide (P y)); simpl; lia.
  - intros Hi. rewrite !filter_cons. specialize (IH i x y Hi).
    destruct (decide (P a)); simpl; lia.
Qed.

(** ** The moves of the goat, the cabbage and the wolf *)

Section CrossingMoves.
Import Crossing.

Lemma crossing_transitions_moves (actors : actors_t) :
  transitions actors =
    foldl (λ res i, res ++ crossing_moves actors i) [] (seq 0 (length actors)).
Proof.
  unfold transitions.
  enough (∀ (l : list nat) (init : list (actors_t → actors_t)),
            foldl (λ res i,
                     match actors !! i with
                     | Some shore1 => res ++ [move i travel]
                     | Some travel => res ++ [move i shore1; move i shore2]
                     | Some shore2 => res ++ [move i travel]
                     | None => res
                     end) init l =
            foldl (λ res i, res ++ crossing_moves actors i) init l)
    as Hgen by apply Hgen.
  induction l as [|i l IH]; intros init; simpl; [done|].
  rewrite <- IH. f_equal. unfold crossing_moves.
  destruct (actors !! i) as [[]|]; by rewrite ?app_nil_r.
Qed.

Lemma crossing_successor (actors y : actors_t) :
  y ∈ successors transitions actors ↔
  ∃ i p q, actors !! i = Some p ∧ one_step p q ∧ y = <[i := q]> actors.
Proof.
  rewrite elem_of_successors, crossing_transitions_moves. split.
  - intros (t & Ht & <-). apply elem_of_foldl_app in Ht as [Ht|(i & _ & Ht)];
      [by apply elem_of_nil in Ht|].
    unfold crossing_moves in Ht.
    destruct (actors !! i) as [p|] eqn:Hp; [|by apply elem_of_nil in Ht].
    exists i, p. unfold one_step.
    destruct p; set_solver.
  - intros (i & p & q & Hp & Hstep & ->). exists (move i q). split; [|done].
    apply elem_of_foldl_app. right. exists i. split.
    + apply elem_of_seq. apply lookup_lt_Some in Hp. lia.
    + unfold crossing_moves. rewrite Hp. unfold one_step in Hstep.
      destruct p, q; set_solver.
Qed.

Lemma crossing_path_length x l :
  path_to space x l → length x = 3.
Proof.
  induction 1 as [|p x l Hp IH Hs Hi]; [done|].
  apply crossing_successor in Hs as (i & a & b & _ & _ & ->).
  etrans; [apply length_insert|done].
Qed.

(** A successor differs from the state in the position of one actor, who
    went on board from a shore or left the boat for a shore; the array is
    as long as before; and every move can be taken back: the state is a
    successor of its successor. *)
Theorem crossing_moves_can_be_taken_back (actors y : actors_t) :
  y ∈ successors transitions actors →
  (∃ i p q, actors !! i = Some p ∧ one_step p q ∧ y = <[i := q]> actors) ∧
  length y = length actors ∧
  actors ∈ successors transitions y.
Proof.
  intros Hy. pose proof Hy as (i & p & q & Hp & Hstep & ->)%crossing_successor.
  split; [by exists i, p, q|]. split; [apply length_insert|].
  apply crossing_successor. exists i, q, p. split_and!.
  - apply list_lookup_insert_eq. by apply lookup_lt_Some in Hp.
  - unfold one_step in *. naive_solver.
  - unfold actors_t in *. by rewrite list_insert_insert_eq, list_insert_id.
Qed.

End CrossingMoves.

(** ** Searching for the crossing *)

Section CrossingSearch.
Import Crossing.

Lemma crossing_states_complete (x : actors_t) :
  length x = 3 → x ∈ crossing_states.
Proof.
  destruct x as [|a [|b [|c [|]]]]; try done. intros _.
  destruct a, b, c; apply (bool_decide_unpack _); by vm_compute.
Qed.

(** A breadth-first solution is not longer than any valid path to a goal
    state. *)
Lemma breadth_first_solution_not_longer {State_t : Type} `{Countable State_t}
    `{Inhabited State_t} {Cost_t : Type} `{Inhabited Cost_t}
    (cost_lt : Cost_t → Cost_t → bool) (sp : state_space_t State_t Cost_t)
    (goal_pred : State_t → bool) fuel solution :
  (check cost_lt sp goal_pred breadth_first fuel).1 = Solution solution →
  ∀ c l, path_to sp c l → goal_pred c = true → length solution ≤ length l.
Proof.
  destruct (check cost_lt sp goal_pred breadth_first fuel) as [res sp'] eqn:Hcheck.
  simpl. intros ->.
  destruct (check_Solution_path _ _ _ _ _ _ _ Hcheck)
    as (d & r & cn & Hinv & Hbfs & Hcn & Hhead & Hgoal & Hpath & Hlen).
  intros c l Hl Hc. rewrite Hlen.
  destruct (bfs_path_bound sp goal_pred d r cn Hinv (Hbfs eq_refl)
              (Hhead eq_refl) c l Hl) as [[Hknown Hle]|Hle]; [|lia].
  apply elem_of_app in Hknown as [Hpassed|Hwaiting].
  - by rewrite (inv_not_goal _ _ _ _ Hinv c Hpassed) in Hc.
  - pose proof (bfs_sorted _ _ _ (Hbfs eq_refl)) as Hs.
    specialize (Hhead eq_refl).
    destruct (waiting r) as [|h t]; [done|]. injection Hhead as ->.
    apply StronglySorted_inv in Hs as [_ Hall]. rewrite Forall_forall in Hall.
    apply elem_of_cons in Hwaiting as [->|Hw]; [lia|].
    specialize (Hall c Hw). simpl in Hall. lia.
Qed.

(** [solve] of crossing.cpp returns the eleven states of its sample output,
    for every fuel from 28 on, and no way of bringing the three across
    that [is_valid] accepts at every step takes fewer than ten moves. *)
Theorem crossing_solve_is_shortest fuel :
  28 ≤ fuel →
  solve fuel = Solution crossing_trace ∧
  ∀ c l, path_to space c l → all_on_shore2 c = true → 11 ≤ length l.
Proof.
  intros Hfuel.
  assert (Hrun : solve 28 = Solution crossing_trace) by (by vm_compute).
  split.
  - replace fuel with (28 + (fuel - 28)) by lia. unfold solve.
    by apply check_fuel_mono.
  - intros c l Hl Hc.
    apply (breadth_first_solution_not_longer Z.ltb space all_on_shore2 28
             crossing_trace Hrun c l Hl Hc).
Qed.

Lemma crossing_paths_in_states (invariant_fn : actors_t → bool) x l :
  path_to (make_default_state_space start (successors transitions) invariant_fn)
    x l →
  x ∈ crossing_states.
Proof.
  intros Hpath. apply crossing_states_complete.
  induction Hpath as [|p x l Hp IH Hs Hi]; [done|].
  simpl in Hs. apply crossing_successor in Hs as (i & a & b & _ & _ & ->).
  etrans; [apply length_insert|done].
Qed.

(** Whatever invariant, goal predicate and search order are given, a search
    over the transitions of crossing.cpp from its initial state ends:
    there are only 27 arrays of three positions. *)
Theorem crossing_search_ends (invariant_fn goal_pred : actors_t → bool)
    (order : search_order_t) :
  ∃ res,
    res ≠ OutOfFuel ∧
    ∀ fuel, 56 ≤ fuel →
      (check Z.ltb
         (make_default_state_space start (successors transitions) invariant_fn)
         goal_pred order fuel).1 = res.
Proof.
  apply (check_ends_on_finite_state_space Z.ltb _ goal_pred order crossing_states).
  apply crossing_paths_in_states.
Qed.

End CrossingSearch.

(** ** The boat of the family and its costs *)

Section FamilyBoat.
Import Family.

Lemma family_transitions_elem (s : state_t) t :
  t ∈ transitions s ↔
  t ∈ boat_transitions s ∨
  ∃ i, i < length (persons s) ∧ t ∈ person_transitions s i.
Proof.
  unfold transitions. rewrite elem_of_foldl_app.
  split; (intros [?|(i & Hi & ?)]; [by left|right; exists i; split; [|done]]).
  - apply elem_of_seq in Hi. lia.
  - apply elem_of_seq. lia.
Qed.

Lemma on_board_le (s : state_t) : on_board s ≤ length (persons s).
Proof. apply length_filter. Qed.

Lemma on_board_arrive b p s :
  p ≠ person_t.onboard → on_board (arrive b p s) = 0.
Proof.
  intros Hp. unfold on_board, arrive. simpl.
  induction (persons s) as [|q l IH]; [done|]. rewrite fmap_cons, filter_cons.
  destruct (decide (q = person_t.onboard)); by rewrite decide_False.
Qed.

Lemma family_successor_counted (s y : state_t) :
  y ∈ successors transitions s →
  passengers_counted s → (Z.of_nat (length (persons s)) < 65536)%Z →
  passengers_counted y ∧
  length (persons y) = length (persons s) ∧
  boat_t.capacity (boat y) = boat_t.capacity (boat s) ∧
  (boat_t.pos (boat s) = boat_t.travel → on_board y = 0).
Proof.
  intros (t & Ht & <-)%elem_of_successors Hcount Hlen.
  unfold passengers_counted in *.
  pose proof (on_board_le s) as Hle.
  apply family_transitions_elem in Ht as [Ht|(i & Hi & Ht)].
  - unfold boat_transitions in Ht. destruct (boat_t.pos (boat s)) eqn:Hpos.
    + destruct (decide _); [|by apply elem_of_nil in Ht].
      apply list_elem_of_singleton in Ht as ->. by split_and!.
    + apply elem_of_cons in Ht as [->|Ht];
        [|apply list_elem_of_singleton in Ht as ->];
        (split_and!; [by rewrite on_board_arrive|apply length_fmap|done|
                      intros _; by apply on_board_arrive]).
    + destruct (decide _); [|by apply elem_of_nil in Ht].
      apply list_elem_of_singleton in Ht as ->. by split_and!.
  - unfold person_transitions in Ht.
    destruct (persons s !! i) as [p|] eqn:Hp; [|by apply elem_of_nil in Ht].
    assert (Hins : ∀ q,
              length (filter (λ p, p = person_t.onboard) (<[i := q]> (persons s))) +
                (if decide (p = person_t.onboard) then 1 else 0) =
              on_board s + (if decide (q = person_t.onboard) then 1 else 0)).
    { intros q. unfold on_board.
      by apply (length_filter_insert (λ p0, p0 = person_t.onboard)
                  (Hdec := λ p0, decide (p0 = person_t.onboard))). }
    assert (Hle' : ∀ q,
              length (filter (λ p, p = person_t.onboard) (<[i := q]> (persons s))) ≤
              length (persons s)).
    { intros q. etrans; [apply length_filter|]. by rewrite length_insert. }
    assert (Hboard : p ≠ person_t.onboard →
              passengers_counted (board i s) ∧
              length (persons (board i s)) = length (persons s)).
    { intros Hne. unfold passengers_counted, on_board, board. simpl.
      specialize (Hins person_t.onboard). specialize (Hle' person_t.onboard).
      rewrite decide_False, decide_True in Hins by done.
      split; [|apply length_insert].
      rewrite Hcount. unfold uint16_wrap. rewrite Z.mod_small; lia. }
    assert (Hleave : ∀ q, p = person_t.onboard → q ≠ person_t.onboard →
              passengers_counted (leave i q s) ∧
              length (persons (leave i q s)) = length (persons s)).
    { intros q Heq Hne. unfold passengers_counted, on_board, leave. simpl.
      specialize (Hins q). specialize (Hle' q).
      rewrite decide_True, decide_False in Hins by done.
      split; [|apply length_insert].
      rewrite Hcount. unfold uint16_wrap. rewrite Z.mod_small; lia. }
    destruct p; repeat (destruct (decide _) as [Hpos|]);
      try (by apply elem_of_nil in Ht);
      apply list_elem_of_singleton in Ht as ->.
    + destruct Hboard as [? ?]; [done|]. split_and!; [done..|by rewrite Hpos].
    + destruct (Hleave person_t.shore1) as [? ?]; [done..|].
      split_and!; [done..|by rewrite Hpos].
    + destruct (Hleave person_t.shore2) as [? ?]; [done..|].
      split_and!; [done..|by rewrite Hpos].
    + destruct Hboard as [? ?]; [done|]. split_and!; [done..|by rewrite Hpos].
Qed.

(** Every transition keeps the counter of the boat equal to the number of
    persons on board (the array holding fewer than 65536 persons, so that
    the 16-bit counter does not wrap), keeps the capacity of the boat and
    the length of the array; an arrival leaves nobody on board. *)
Theorem family_boat_counts_its_passengers (s y : state_t) :
  y ∈ successors transitions s →
  passengers_counted s → (Z.of_nat (length (persons s)) < 65536)%Z →
  passengers_counted y ∧
  length (persons y) = length (persons s) ∧
  boat_t.capacity (boat y) = boat_t.capacity (boat s) ∧
  (boat_t.pos (boat s) = boat_t.travel → on_board y = 0).
Proof. apply family_successor_counted. Qed.

Lemma elem_of_lists_of {A : Type} (xs l : list A) :
  (∀ x, x ∈ l → x ∈ xs) → l ∈ lists_of xs (length l).
Proof.
  induction l as [|a l IH]; intros Hin; simpl; [by left|].
  apply list_elem_of_bind. exists a. split; [|apply Hin; by left].
  apply list_elem_of_bind. exists l. split; [by left|].
  apply IH. intros x Hx. apply Hin. by right.
Qed.

Lemma family_states_complete (s : state_t) :
  length (persons s) = 8 → boat_t.capacity (boat s) = 2%Z →
  passengers_counted s → s ∈ family_states.
Proof.
  destruct s as [[p c n] l]. unfold passengers_counted. simpl.
  intros Hlen -> ->. unfold family_states.
  pose proof (on_board_le (State (boat_t.Boat p 2 0) l)) as Hle. simpl in Hle.
  apply list_elem_of_bind. exists p. split; [|destruct p; set_solver].
  apply list_elem_of_bind. exists (on_board (State (boat_t.Boat p 2 0) l)).
  split; [|apply elem_of_seq; lia].
  apply list_elem_of_bind. exists l. split; [by left|].
  rewrite <- Hlen. apply elem_of_lists_of. intros []; set_solver.
Qed.

Lemma family_paths_in_states (cost : cost_t)
    (invariant_fn : state_t → bool) (cost_fn : state_t → cost_t → cost_t) x l :
  path_to (make_state_space initial cost (successors transitions)
             invariant_fn cost_fn) x l →
  x ∈ family_states.
Proof.
  intros Hpath.
  enough (length (persons x) = 8 ∧ boat_t.capacity (boat x) = 2%Z ∧
          passengers_counted x) as (? & ? & ?) by by apply family_states_complete.
  induction Hpath as [|p x l Hp (Hlen & Hcap & Hcount) Hs Hi]; [done|].
  simpl in Hs.
  destruct (family_successor_counted p x Hs Hcount) as (? & Hlen' & Hcap' & _).
  { rewrite Hlen. done. }
  split_and!; [by rewrite Hlen'|by rewrite Hcap'|done].
Qed.

(** Whatever invariant, cost function, initial cost, goal predicate and
    search order are given, a search over the transitions of family.cpp
    from its initial state ends: the eight persons, the three places of
    the boat and its counter, which stays the number of persons on board,
    leave finitely many states. *)
Theorem family_search_ends (cost : cost_t) (invariant_fn goal_pred : state_t → bool)
    (cost_fn : state_t → cost_t → cost_t) (order : search_order_t) :
  ∃ res,
    res ≠ OutOfFuel ∧
    ∀ fuel, 2 * length family_states + 2 ≤ fuel →
      (check cost_lt
         (make_state_space initial cost (successors transitions)
            invariant_fn cost_fn)
         goal_pred order fuel).1 = res.
Proof.
  apply (check_ends_on_finite_state_space cost_lt _ goal_pred order family_states).
  apply family_paths_in_states.
Qed.

Lemma cost_lt_spec (a b : cost_t) :
  cost_lt a b = true ↔
  (depth a < depth b ∨ (depth a = depth b ∧ noise a < noise b))%Z.
Proof.
  unfold cost_lt. repeat case Z.ltb_spec; intros; split; (done || lia).
Qed.

Lemma cost_lt_false (a b : cost_t) :
  cost_lt a b = false ↔
  ¬ (depth a < depth b ∨ (depth a = depth b ∧ noise a < noise b))%Z.
Proof. rewrite <- cost_lt_spec. by destruct (cost_lt a b). Qed.

Lemma cost_lt_irrefl (a : cost_t) : cost_lt a a = false.
Proof. apply cost_lt_false. lia. Qed.

(** [operator<] of [cost_t] is a strict total order: nothing is below
    itself, the order is transitive, an element between two ordered ones
    is above the lower or below the upper, and two costs neither of which
    is below the other are equal. *)
Theorem family_cost_order :
  (∀ a, cost_lt a a = false) ∧
  (∀ a b c, cost_lt a b = true → cost_lt b c = true → cost_lt a c = true) ∧
  (∀ a b c, cost_lt a c = true → cost_lt a b = true ∨ cost_lt b c = true) ∧
  (∀ a b, cost_lt a b = false → cost_lt b a = false → a = b).
Proof.
  split_and!.
  - apply cost_lt_irrefl.
  - intros a b c. rewrite !cost_lt_spec. lia.
  - intros a b c. rewrite !cost_lt_spec. lia.
  - intros [d1 n1] [d2 n2]. rewrite !cost_lt_false. simpl. intros ? ?.
    f_equal; lia.
Qed.

End FamilyBoat.

Section FamilyNoise.
Import Family.

(** The second cost function of [main] ranks a state that the older son has
    left the first shore in strictly below a state where he still is
    there, and the third one does so for the younger son, whatever the
    other son does, as long as the noise counter plus three is below 2^64
    (at 2^64 - 3 the sum for two sons on the first shore wraps around to
    0): the son who counts double is preferred first. *)
Theorem noise_cost_prefers_the_son_who_counts_double
    (s s' : state_t) (prev_cost : cost_t) :
  (0 ≤ noise prev_cost)%Z → (noise prev_cost + 3 < 2 ^ 64)%Z →
  (persons s !! person_t.son1 ≠ Some person_t.shore1 →
   persons s' !! person_t.son1 = Some person_t.shore1 →
   cost_lt (noise_cost_son1 s prev_cost) (noise_cost_son1 s' prev_cost) = true) ∧
  (persons s !! person_t.son2 ≠ Some person_t.shore1 →
   persons s' !! person_t.son2 = Some person_t.shore1 →
   cost_lt (noise_cost_son2 s prev_cost) (noise_cost_son2 s' prev_cost) = true).
Proof.
  intros Hlo Hhi.
  assert (Hwrap : ∀ n, (0 ≤ n)%Z → (n < 2 ^ 64)%Z → size_wrap n = n).
  { intros n ? ?. unfold size_wrap. by apply Z.mod_small. }
  split; intros Hs Hs'; apply cost_lt_spec; right; (split; [done|]);
    unfold noise_cost_son1, noise_cost_son2, noise_cost; simpl;
    repeat case_decide; try done; rewrite ?Hwrap; try lia;
    rewrite ?Hwrap; lia.
Qed.

End FamilyNoise.

(** ** The further properties at concrete engines *)

(** The frogs puzzle under the invariant that accepts the start only: the
    finish cannot be reached. *)
Lemma no_solution_means_no_goal_is_reachable_frogs :
  check Z.ltb (Frogs.blocked_space 2) (Frogs.is_finish 2) breadth_first 2 =
    (NoSolutionFound, Frogs.blocked_space 2) ∧
  ∀ x l, path_to (Frogs.blocked_space 2) x l → Frogs.is_finish 2 x = false.
Proof.
  assert (Hcheck : check Z.ltb (Frogs.blocked_space 2) (Frogs.is_finish 2)
                     breadth_first 2 = (NoSolutionFound, Frogs.blocked_space 2))
    by (vm_compute; reflexivity).
  split; [exact Hcheck|].
  exact (no_solution_means_no_goal_is_reachable Z.ltb (Frogs.blocked_space 2)
           (Frogs.is_finish 2) breadth_first 2 (Frogs.blocked_space 2) Hcheck).
Defined.

(** The search of crossing.cpp among the 27 arrays of three positions. *)
Lemma check_decides_reachability_crossing :
  (∀ x l, path_to Crossing.space x l → x ∈ crossing_states) ∧
  2 * length crossing_states + 2 ≤ 56 ∧
  ((∃ x l, path_to Crossing.space x l ∧ Crossing.all_on_shore2 x = true) →
   ∃ solution,
     (check Z.ltb Crossing.space Crossing.all_on_shore2 depth_first 56).1 =
       Solution solution) ∧
  ((∀ x l, path_to Crossing.space x l → Crossing.all_on_shore2 x = false) →
   (check Z.ltb Crossing.space Crossing.all_on_shore2 depth_first 56).1 =
     NoSolutionFound).
Proof.
  assert (Huniverse : ∀ x l, path_to Crossing.space x l → x ∈ crossing_states)
    by exact (crossing_paths_in_states Crossing.is_valid).
  assert (Hfuel : 2 * length crossing_states + 2 ≤ 56) by (vm_compute; lia).
  split; [exact Huniverse|]. split; [exact Hfuel|].
  exact (check_decides_reachability_on_finite_state_space Z.ltb Crossing.space
           Crossing.all_on_shore2 depth_first crossing_states Huniverse 56 Hfuel).
Defined.

(** The depth-first solution of the frogs puzzle. *)
Lemma solution_is_a_simple_path_frogs :
  check Z.ltb (Frogs.space 2) (Frogs.is_finish 2) depth_first 24 =
    (Solution Frogs.depth_first_trace, Frogs.space 2) ∧
  NoDup Frogs.depth_first_trace ∧
  ∀ i c, Frogs.depth_first_trace !! i = Some c →
    S i < length Frogs.depth_first_trace → Frogs.is_finish 2 c = false.
Proof.
  assert (Hcheck : check Z.ltb (Frogs.space 2) (Frogs.is_finish 2) depth_first 24 =
                     (Solution Frogs.depth_first_trace, Frogs.space 2))
    by (vm_compute; reflexivity).
  split; [exact Hcheck|].
  exact (solution_is_a_simple_path Z.ltb (Frogs.space 2) (Frogs.is_finish 2)
           depth_first 24 Frogs.depth_first_trace (Frogs.space 2) Hcheck).
Defined.

(** The trace map of the frogs puzzle after three depth-first turns. *)
Lemma trace_map_is_written_once_frogs :
  ∃ r,
    iterate Z.ltb (Frogs.space 2) (Frogs.is_finish 2) depth_first 3
      (initial_run (Frogs.space 2)) = Some r ∧
    trace r !! initial_state (Frogs.space 2) = None ∧
    ∀ x, is_Some (trace r !! x) ↔
         x ∈ passed r ++ waiting r ∧ x ≠ initial_state (Frogs.space 2).
Proof.
  destruct (iterate Z.ltb (Frogs.space 2) (Frogs.is_finish 2) depth_first 3
              (initial_run (Frogs.space 2))) as [r|] eqn:Hrun.
  - exists r. split; [reflexivity|].
    pose proof (trace_map_is_written_once Z.ltb (Frogs.space 2)
                  (Frogs.is_finish 2) depth_first 3 r Hrun) as (Hinit & Hkeys & _).
    split; [exact Hinit|exact Hkeys].
  - vm_compute in Hrun. discriminate Hrun.
Defined.

(** The deque 2, 3 of the engine of module [Rerun]. *)
Lemma popstate_takes_one_state_out_rerun :
  [2%Z; 3%Z] ≠ [] ∧
  ∃ l1 state l2 prev_cost',
    [2%Z; 3%Z] = l1 ++ state :: l2 ∧
    popstate Z.ltb Rerun.engine [2%Z; 3%Z] cost_guided 1%Z =
      (state, l1 ++ l2, prev_cost') ∧
    (cost_guided = depth_first → l2 = []) ∧
    (cost_guided = breadth_first → l1 = []) ∧
    (cost_guided ≠ cost_guided → prev_cost' = 1%Z).
Proof.
  assert (Hne : [2%Z; 3%Z] ≠ @nil Z) by discriminate.
  split; [exact Hne|].
  exact (popstate_takes_one_state_out Z.ltb Rerun.engine [2%Z; 3%Z]
           cost_guided 1%Z Hne).
Defined.

(** Three breadth-first turns of the frogs puzzle. *)
Lemma breadth_first_is_first_in_first_out_frogs :
  ∃ r,
    iterate Z.ltb (Frogs.space 2) (Frogs.is_finish 2) breadth_first 3
      (initial_run (Frogs.space 2)) = Some r ∧
    ∃ new,
      passed r ++ waiting r = ([] ++ [initial_state (Frogs.space 2)]) ++ new ∧
      passed r = [] ++ take 3 ([initial_state (Frogs.space 2)] ++ new).
Proof.
  destruct (iterate Z.ltb (Frogs.space 2) (Frogs.is_finish 2) breadth_first 3
              (initial_run (Frogs.space 2))) as [r|] eqn:Hrun.
  - exists r. split; [reflexivity|].
    exact (breadth_first_is_first_in_first_out Z.ltb (Frogs.space 2)
             (Frogs.is_finish 2) 3 (initial_run (Frogs.space 2)) r Hrun).
  - vm_compute in Hrun. discriminate Hrun.
Defined.

(** A depth-first search of the engine of module [Rerun]. *)
Lemma only_cost_guided_search_writes_previous_cost_rerun :
  depth_first ≠ cost_guided ∧
  (check Z.ltb Rerun.engine Rerun.goal depth_first 10).2 = Rerun.engine.
Proof.
  assert (Hord : depth_first ≠ cost_guided) by discriminate.
  split; [exact Hord|].
  exact (only_cost_guided_search_writes_previous_cost Z.ltb Rerun.engine
           Rerun.goal depth_first 10 Hord).
Defined.


(** An engine over the states of family.cpp with the cost function that
    counts the depth. *)
Lemma state_independent_cost_is_breadth_first_family :
  let sp := make_state_space Family.initial (Family.Cost 0 0)
              (successors Family.transitions) default_invariant Family.depth_cost in
  (∀ a, Family.cost_lt a a = false) ∧
  (∀ s1 s2 prev_cost, cost_function sp s1 prev_cost = cost_function sp s2 prev_cost) ∧
  ∀ fuel, (check Family.cost_lt sp Family.goal cost_guided fuel).1 =
          (check Family.cost_lt sp Family.goal breadth_first fuel).1.
Proof.
  intros sp.
  assert (Hirr : ∀ a, Family.cost_lt a a = false) by exact cost_lt_irrefl.
  assert (Hcost : ∀ s1 s2 prev_cost,
            cost_function sp s1 prev_cost = cost_function sp s2 prev_cost)
    by reflexivity.
  split; [exact Hirr|]. split; [exact Hcost|].
  exact (proj2 (state_independent_cost_is_breadth_first Family.cost_lt Hirr sp
                  Hcost Family.goal)).
Defined.


(** The rows of [solve(4)], the second call of [main]. *)
Lemma frogs_start_and_finish_4 :
  (Z.of_nat 4 * 2 + 1 < 2 ^ 64)%Z ∧
  Frogs.start_finish 4 =
    (replicate 4 Frogs.green ++ [Frogs.empty] ++ replicate 4 Frogs.brown,
     replicate 4 Frogs.brown ++ [Frogs.empty] ++ replicate 4 Frogs.green).
Proof.
  assert (Hsize : (Z.of_nat 4 * 2 + 1 < 2 ^ 64)%Z) by reflexivity.
  split; [exact Hsize|].
  exact (frogs_start_and_finish 4 Hsize).
Defined.

(** [solve(2, depth_first)], the first call of [main]. *)
Lemma frogs_solve_ends_2 :
  (Z.of_nat 2 * 2 + 1 < 2 ^ 32)%Z ∧
  ∃ res,
    res ≠ OutOfFuel ∧
    (∀ fuel, 2 * length (permutations (Frogs.start_finish 2).1) + 2 ≤ fuel →
       Frogs.solve 2 depth_first fuel = res) ∧
    (res = NoSolutionFound →
     ∀ l, ¬ path_to (Frogs.space 2) (Frogs.start_finish 2).2 l).
Proof.
  assert (Hsize : (Z.of_nat 2 * 2 + 1 < 2 ^ 32)%Z) by reflexivity.
  split; [exact Hsize|].
  exact (frogs_solve_ends 2 depth_first Hsize).
Defined.

(** The goat goes on board, and can go back. *)
Lemma crossing_moves_can_be_taken_back_goat :
  let y := [Crossing.shore1; Crossing.travel; Crossing.shore1] in
  y ∈ successors Crossing.transitions Crossing.start ∧
  length y = length Crossing.start ∧
  Crossing.start ∈ successors Crossing.transitions y.
Proof.
  intros y.
  assert (Hy : y ∈ successors Crossing.transitions Crossing.start)
    by (apply (bool_decide_unpack _); vm_compute; exact I).
  split; [exact Hy|].
  exact (proj2 (crossing_moves_can_be_taken_back Crossing.start y Hy)).
Defined.

(** The crossing with 28 units of fuel. *)
Lemma crossing_solve_is_shortest_28 :
  28 ≤ 28 ∧
  Crossing.solve 28 = Solution crossing_trace ∧
  ∀ c l, path_to Crossing.space c l → Crossing.all_on_shore2 c = true →
    11 ≤ length l.
Proof.
  split; [exact (le_n 28)|].
  exact (crossing_solve_is_shortest 28 (le_n 28)).
Defined.

(** The mother boards the empty boat of the initial state. *)
Lemma family_boat_counts_its_passengers_initial :
  let y := Family.board Family.person_t.mother Family.initial in
  y ∈ successors Family.transitions Family.initial ∧
  passengers_counted Family.initial ∧
  (Z.of_nat (length (Family.persons Family.initial)) < 65536)%Z ∧
  passengers_counted y ∧
  length (Family.persons y) = length (Family.persons Family.initial).
Proof.
  intros y.
  assert (Hy : y ∈ successors Family.transitions Family.initial)
    by (apply (bool_decide_unpack _); vm_compute; exact I).
  assert (Hcount : passengers_counted Family.initial) by reflexivity.
  assert (Hlen : (Z.of_nat (length (Family.persons Family.initial)) < 65536)%Z)
    by reflexivity.
  split; [exact Hy|]. split; [exact Hcount|]. split; [exact Hlen|].
  pose proof (family_boat_counts_its_passengers Family.initial y Hy Hcount Hlen)
    as (Hc & Hl & _).
  split; [exact Hc|exact Hl].
Defined.

(** From the initial cost: the older son across, against the initial
    state. *)
Lemma noise_cost_prefers_the_son_who_counts_double_initial :
  let s := Family.State (Family.boat Family.initial)
             (<[Family.person_t.son1 := Family.person_t.shore2]>
                (Family.persons Family.initial)) in
  (0 ≤ Family.noise (Family.Cost 0 0))%Z ∧
  (Family.noise (Family.Cost 0 0) + 3 < 2 ^ 64)%Z ∧
  Family.persons s !! Family.person_t.son1 ≠ Some Family.person_t.shore1 ∧
  Family.persons Family.initial !! Family.person_t.son1 =
    Some Family.person_t.shore1 ∧
  Family.cost_lt (Family.noise_cost_son1 s (Family.Cost 0 0))
    (Family.noise_cost_son1 Family.initial (Family.Cost 0 0)) = true.
Proof.
  intros s.
  assert (Hlo : (0 ≤ Family.noise (Family.Cost 0 0))%Z) by (simpl; lia).
  assert (Hhi : (Family.noise (Family.Cost 0 0) + 3 < 2 ^ 64)%Z) by reflexivity.
  assert (Hs : Family.persons s !! Family.person_t.son1 ≠
               Some Family.person_t.shore1) by discriminate.
  assert (Hs' : Family.persons Family.initial !! Family.person_t.son1 =
                Some Family.person_t.shore1) by reflexivity.
  split; [exact Hlo|]. split; [exact Hhi|]. split; [exact Hs|]. split; [exact Hs'|].
  exact (proj1 (noise_cost_prefers_the_son_who_counts_double s Family.initial
                  (Family.Cost 0 0) Hlo Hhi) Hs Hs').
Defined.
